(** * flow-ai deployer: pipeline stages and the diagnostic agent

    A shallow embedding of [cmd/deployer/deploy.go] (build, push, deploy,
    attach, report) and of the agent's classifier and fix selector, with the
    properties of the specification stated and settled over it.

    External effects (processes, environment, file system, Kubernetes client,
    clock, standard output) are operations answered by a [World]; a run
    threads the trace of operations performed so far. *)

From Stdlib Require Import String Ascii List ZArith Lia QArith DecimalString Sorted.
From stdpp Require Import base strings list gmap.
Import ListNotations.

Local Open Scope list_scope.
Local Open Scope string_scope.

(* ===================================================================== *)
(** ** Go strings: the functions of package [strings] the code calls      *)
(* ===================================================================== *)

Module GoStrings.

Definition nl : string := String "010"%char EmptyString.
(** the double-quote character, byte 34 *)
Definition dq : string := String (ascii_of_nat 34) EmptyString.

(** [strings.HasPrefix] *)
Fixpoint HasPrefix (s p : string) {struct p} : bool :=
  match p, s with
  | EmptyString, _ => true
  | String _ _, EmptyString => false
  | String a p', String b s' => if Ascii.eqb a b then HasPrefix s' p' else false
  end.

(** [strings.Contains]: [substr] occurs at some offset of [s] *)
Fixpoint Contains (s substr : string) : bool :=
  HasPrefix s substr ||
  match s with
  | EmptyString => false
  | String _ s' => Contains s' substr
  end.

(** [genSplit] of package strings for a non-empty separator: cut at the
    non-overlapping occurrences of [sep], left to right, at most [cuts]
    times ([None]: no limit).  [skip] counts the bytes of a separator just
    recognised that are still to be dropped.  The result is never empty. *)
Fixpoint genSplit (sep : string) (cuts : option nat) (skip : nat) (s : string)
  : list string :=
  match s with
  | EmptyString => [EmptyString]
  | String c s' =>
      match skip with
      | S k => genSplit sep cuts k s'
      | O =>
          let may_cut := match cuts with Some O => false | _ => true end in
          if may_cut && HasPrefix s sep
          then EmptyString ::
               genSplit sep (option_map Nat.pred cuts) (String.length sep - 1) s'
          else match genSplit sep cuts 0 s' with
               | p :: ps => String c p :: ps
               | [] => [String c EmptyString]
               end
      end
  end.

(** [strings.Split(s, sep)], [sep] non-empty (every call of the source
    passes a one-byte separator). *)
Definition Split (s sep : string) : list string := genSplit sep None 0 s.

(** [strings.SplitN(s, sep, n)] for [n > 0] and [sep] non-empty: at most
    [n] pieces, the last one the unsplit remainder. *)
Definition SplitN (s sep : string) (n : nat) : list string :=
  genSplit sep (Some (n - 1)) 0 s.

(** [asciiSpace] of package strings: space, \t \n \v \f \r *)
Definition isSpace (c : ascii) : bool :=
  let n := nat_of_ascii c in
  (n =? 32)%nat || ((9 <=? n)%nat && (n <=? 13)%nat).

(** [unicode.IsSpace] on the runes of two bytes, by their UTF-8 encoding:
    U+0085 (C2 85) and U+00A0 (C2 A0) *)
Definition isSpace2 (a b : ascii) : bool :=
  let x := nat_of_ascii a in
  let y := nat_of_ascii b in
  ((x =? 194) && ((y =? 133) || (y =? 160)))%nat.

(** [unicode.IsSpace] on the runes of three bytes: U+1680 (E1 9A 80),
    U+2000 to U+200A (E2 80 80 to E2 80 8A), U+2028 and U+2029 (E2 80 A8,
    E2 80 A9), U+202F (E2 80 AF), U+205F (E2 81 9F), U+3000 (E3 80 80) *)
Definition isSpace3 (a b c : ascii) : bool :=
  let x := nat_of_ascii a in
  let y := nat_of_ascii b in
  let z := nat_of_ascii c in
  (((x =? 225) && (y =? 154) && (z =? 128)) ||
   ((x =? 226) && (y =? 128) &&
    (((128 <=? z) && (z <=? 138)) || (z =? 168) || (z =? 169) || (z =? 175))) ||
   ((x =? 226) && (y =? 129) && (z =? 159)) ||
   ((x =? 227) && (y =? 128) && (z =? 128)))%nat.

(** leading white space: the runes for which [unicode.IsSpace] holds, read
    from the left.  A byte that starts no such rune ends the white space. *)
Fixpoint trimLeft (s : string) : string :=
  match s with
  | EmptyString => EmptyString
  | String a s1 =>
      if isSpace a then trimLeft s1
      else match s1 with
           | String b s2 =>
               if isSpace2 a b then trimLeft s2
               else match s2 with
                    | String c s3 => if isSpace3 a b c then trimLeft s3 else s
                    | EmptyString => s
                    end
           | EmptyString => s
           end
  end.

Fixpoint revOnto (s acc : string) : string :=
  match s with
  | EmptyString => acc
  | String c s' => revOnto s' (String c acc)
  end.

(** trailing white space of a string given back to front: the same runes,
    read from the right, last byte first *)
Fixpoint trimLeftRev (s : string) : string :=
  match s with
  | EmptyString => EmptyString
  | String c s1 =>
      if isSpace c then trimLeftRev s1
      else match s1 with
           | String b s2 =>
               if isSpace2 b c then trimLeftRev s2
               else match s2 with
                    | String a s3 => if isSpace3 a b c then trimLeftRev s3 else s
                    | EmptyString => s
                    end
           | EmptyString => s
           end
  end.

(** [strings.TrimSpace]: the string without its leading and trailing white
    space, as Unicode defines it *)
Definition TrimSpace (s : string) : string :=
  revOnto (trimLeftRev (revOnto (trimLeft s) EmptyString)) EmptyString.

(** [strings.Join] *)
Fixpoint Join (elems : list string) (sep : string) : string :=
  match elems with
  | [] => EmptyString
  | [e] => e
  | e :: rest => e ++ sep ++ Join rest sep
  end.

(** the verb [%d] of package fmt on an integer *)
Definition fmt_d (z : Z) : string := NilEmpty.string_of_int (Z.to_int z).

(** [s == ""] *)
Definition isEmpty (s : string) : bool :=
  match s with EmptyString => true | _ => false end.

End GoStrings.
Import GoStrings.

(* ===================================================================== *)
(** ** The world and the monad of a run                                   *)
(* ===================================================================== *)

(** An external command: [exec.Command(prog, args...)] with its standard
    input; [capture] tells [Output()] (standard output returned) from
    [Run()] (standard output inherited). *)
Record Cmd := mkCmd {
  prog : string;
  args : list string;
  stdin : option string;
  capture : bool
}.

(** The operations a run performs on its environment.  The last one is the
    call of [configureECRPullPermissions], a function of the deployer
    defined outside [deploy.go]: its outcome is left to the world, like that
    of an external command. *)
Inductive Op :=
| Exec (c : Cmd)
| Getenv (key : string)
| Getwd
| Stat (path : string)
| LookPath (file : string)
| Executable
| Chmod (path : string) (mode : Z)
| TimeNow
| Print (text : string)
| InClusterConfig
| BuildConfigFromFlags (masterUrl kubeconfig : string)
| NewForConfig
| SecretsGet (ns name : string)
| SecretsUpdate (ns name : string) (data : gmap string string)
| SecretsCreate (ns name : string) (data : gmap string string)
| ConfigureECRPullPermissions (project ns kubecontext : string).

(** What the environment answers: a Go [error] ([None] is [nil]), the text
    produced (standard output, a variable's value, a path), a number (the
    clock) and the [IsDir] bit of a file. *)
Record Resp := mkResp {
  r_err : option string;
  r_out : string;
  r_num : Z;
  r_dir : bool
}.

Definition Event : Type := Op * Resp.
Definition Trace : Type := list Event.

(** The environment is deterministic but stateful: its answer depends on
    everything performed before.  [range_order] is the order in which the
    runtime iterates over a map. *)
Record World := mkWorld {
  respond : Trace -> Op -> Resp;
  range_order : gmap string string -> list (string * string)
}.

(** A Go [error] value. *)
Definition error : Type := option string.

Inductive Result (A : Type) :=
| Ret (a : A)
| Panic (msg : string).
Arguments Ret {A} a.
Arguments Panic {A} msg.

Definition Go (A : Type) : Type := World -> Trace -> Result A * Trace.

Definition ret {A} (a : A) : Go A := fun _ tr => (Ret a, tr).

Definition bind {A B} (m : Go A) (k : A -> Go B) : Go B :=
  fun w tr =>
    match m w tr with
    | (Ret a, tr') => k a w tr'
    | (Panic msg, tr') => (Panic msg, tr')
    end.

Definition panic {A} (msg : string) : Go A := fun _ tr => (Panic msg, tr).

Definition perform (o : Op) : Go Resp :=
  fun w tr => let r := respond w tr o in (Ret r, (tr ++ [(o, r)])%list).

Definition rangeMap (m : gmap string string) : Go (list (string * string)) :=
  fun w tr => (Ret (range_order w m), tr).

Notation "x <- m ;; k" := (bind m (fun x => k))
  (at level 100, m at next level, right associativity).
Notation "m ;;; k" := (bind m (fun _ => k))
  (at level 100, right associativity).

Definition run {A} (m : Go A) (w : World) : Result A * Trace := m w [].

(** [fmt.Printf] / [fmt.Println] on standard output *)
Definition Printf (text : string) : Go unit := perform (Print text) ;;; ret tt.

(** [os.Getenv] *)
Definition os_Getenv (key : string) : Go string :=
  r <- perform (Getenv key) ;; ret (r_out r).

(** [c.Run()] *)
Definition Run (name : string) (a : list string) (input : option string) : Go error :=
  r <- perform (Exec (mkCmd name a input false)) ;; ret (r_err r).

(** [c.Output()] *)
Definition Output (name : string) (a : list string) : Go (string * error) :=
  r <- perform (Exec (mkCmd name a None true)) ;; ret (r_out r, r_err r).

(** indexing a slice: out of range panics *)
Definition index (l : list string) (i : nat) : Go string :=
  match l !! i with
  | Some x => ret x
  | None =>
      panic ("runtime error: index out of range [" ++ fmt_d (Z.of_nat i)
             ++ "] with length " ++ fmt_d (Z.of_nat (length l)))
  end.

(* ===================================================================== *)
(** ** Push stage                                                         *)
(* ===================================================================== *)

Definition awsRegion : Go string :=
  r1 <- os_Getenv "AWS_REGION" ;;
  r2 <- (if isEmpty r1 then os_Getenv "AWS_DEFAULT_REGION" else ret r1) ;;
  ret (if isEmpty r2 then "us-east-1" else r2).

Definition identityArgs : list string :=
  ["sts"; "get-caller-identity"; "--query"; "Account"; "--output"; "text"].

(** The tail of [dockerPushWithECRLogin], from the credential step on. *)
Definition pushAuthenticated (imageRef region reg repoName : string) : Go error :=
  Printf ("Authenticating with ECR..." ++ nl) ;;;
  a <- Output "aws" ["ecr"; "get-login-password"; "--region"; region] ;;
  match snd a with
  | Some e =>
      ret (Some ("failed to get ECR login password: " ++ e ++ nl ++ nl ++
                 "Troubleshooting:" ++ nl ++ "1. Run: aws configure" ++ nl ++
                 "2. Ensure your AWS credentials are valid" ++ nl ++
                 "3. Check if you have ECR permissions"))
  | None =>
      l <- Run "docker" ["login"; "--username"; "AWS"; "--password-stdin"; reg]
               (Some (fst a)) ;;
      match l with
      | Some e => ret (Some ("failed to login to ECR: " ++ e))
      | None =>
          Printf ("Checking ECR repository: " ++ repoName ++ nl) ;;;
          chk <- Run "aws" ["ecr"; "describe-repositories"; "--repository-names";
                            repoName; "--region"; region] None ;;
          created <-
            match chk with
            | Some _ =>
                Printf ("Repository " ++ repoName ++ " not found, creating..." ++ nl) ;;;
                c <- Run "aws" ["ecr"; "create-repository"; "--repository-name";
                                repoName; "--region"; region] None ;;
                match c with
                | Some e =>
                    ret (Some ("failed to create ECR repository " ++ repoName ++ ": "
                               ++ e ++ nl ++ nl ++ "Troubleshooting:" ++ nl ++
                               "1. Ensure you have ecr:CreateRepository permission"
                               ++ nl ++ "2. Run: ./setup-ecr.sh"))
                | None =>
                    Printf ("Repository " ++ repoName ++ " created successfully" ++ nl) ;;;
                    ret None
                end
            | None => ret None
            end ;;
          match created with
          | Some e => ret (Some e)
          | None =>
              Printf ("Pushing image " ++ imageRef ++ "..." ++ nl) ;;;
              p <- Run "docker" ["push"; imageRef] None ;;
              match p with
              | Some e =>
                  ret (Some ("failed to push image to ECR: " ++ e ++ nl ++ nl ++
                             "Troubleshooting:" ++ nl ++ "1. Check ECR permissions"
                             ++ nl ++ "2. Ensure repository exists" ++ nl ++
                             "3. Run: ./setup-ecr.sh"))
              | None => ret None
              end
          end
      end
  end.

(** [parts := strings.Split(imageRef, "/")] and what follows *)
Definition pushResolved (imageRef region : string) : Go error :=
  let parts := Split imageRef "/" in
  if (length parts <? 1)%nat then ret (Some ("invalid image: " ++ imageRef))
  else
    reg <- index parts 0 ;;
    r <- index (Split imageRef "/") 1 ;;
    repoName <- index (Split r ":") 0 ;;
    pushAuthenticated imageRef region reg repoName.

Definition dockerPushWithECRLogin (imageRef : string) : Go error :=
  region <- awsRegion ;;
  o <- Output "aws" identityArgs ;;
  match snd o with
  | Some e =>
      ret (Some ("failed to get AWS account ID for ECR push: " ++ e ++ nl ++ nl ++
                 "Troubleshooting:" ++ nl ++ "1. Run: aws configure" ++ nl ++
                 "2. Ensure your AWS credentials are valid" ++ nl ++
                 "3. Set AWS_ACCOUNT_ID environment variable"))
  | None =>
      let accountID := TrimSpace (fst o) in
      if isEmpty accountID then ret (Some "AWS account ID is empty")
      else if negb (Contains imageRef ".dkr.ecr.") then
        projectName <- index (Split imageRef ":") 0 ;;
        let ecrImageRef := accountID ++ ".dkr.ecr." ++ region ++ ".amazonaws.com/"
                           ++ projectName ++ ":latest" in
        Printf ("Tagging local image " ++ imageRef ++ " as " ++ ecrImageRef
                ++ "..." ++ nl) ;;;
        t <- Run "docker" ["tag"; imageRef; ecrImageRef] None ;;
        match t with
        | Some e => ret (Some ("failed to tag image for ECR: " ++ e))
        | None => pushResolved ecrImageRef region
        end
      else pushResolved imageRef region
  end.

(* ===================================================================== *)
(** ** Build, deploy, attach and report                                   *)
(* ===================================================================== *)

Record deployReport := mkReport {
  ID : string;
  Project : string;
  Namespace : string;
  Image : string;
  Status : string;
  Description : string;
  CreatedAt : Z
}.

(** The flags of the [deploy] command. *)
Record DeployFlags := mkFlags {
  namespace : string;
  port : Z;
  cpu : string;
  mem : string;
  envs : list string;
  serverURL : string;
  kubecontext : string;
  dbHost : string;
  dbName : string;
  dbUser : string;
  dbPassword : string;
  dbPort : Z;
  redisHost : string;
  redisPassword : string;
  redisPort : Z;
  secrets : list string
}.

Definition quoted (s : string) : string := dq ++ s ++ dq.

Definition nodeDockerfile : string :=
  Join ["FROM node:18-alpine";
        "WORKDIR /app";
        "COPY package*.json ./";
        "RUN npm install --omit=dev";
        "COPY . .";
        "EXPOSE 8080";
        "CMD [" ++ quoted "node" ++ ", " ++ quoted "server.js" ++ "]"] nl.

Definition pythonDockerfile : string :=
  Join ["FROM python:3.11-slim";
        "RUN apt-get update && apt-get install -y gcc && rm -rf /var/lib/apt/lists/*";
        "WORKDIR /app";
        "COPY requirements.txt .";
        "RUN pip install --no-cache-dir -r requirements.txt";
        "COPY . .";
        "EXPOSE 8080";
        "CMD [" ++ quoted "gunicorn" ++ ", " ++ quoted "--bind" ++ ", "
          ++ quoted "0.0.0.0:8080" ++ ", " ++ quoted "app:app" ++ "]"] nl.

Definition goDockerfile : string :=
  Join ["FROM golang:1.21-alpine AS builder";
        "WORKDIR /app";
        "COPY go.mod ./";
        "RUN go mod download";
        "COPY . .";
        "RUN go build -o main .";
        "";
        "FROM alpine:latest";
        "RUN apk add --no-cache ca-certificates";
        "WORKDIR /root/";
        "COPY --from=builder /app/main .";
        "EXPOSE 8080";
        "CMD [" ++ quoted "./main" ++ "]"] nl.

Definition defaultDockerfile : string :=
  Join ["FROM alpine:latest";
        "WORKDIR /app";
        "COPY . .";
        "EXPOSE 8080";
        "CMD [" ++ quoted "echo" ++ ", "
          ++ quoted "No specific buildpack detected, using default" ++ "]"] nl.

(** [m[k] = v] for each well-formed pair *)
Definition toEnvMap (pairs : list string) : gmap string string :=
  foldl (fun m p =>
           match SplitN p "=" 2 with
           | [k; v] => <[k := v]> m
           | _ => m
           end) ∅ pairs.

(** The service descriptor, for the sequence in which the runtime ranges
    over the environment map. *)
Definition newKnServiceYAML (name image ns cpu mem : string)
    (env : list (string * string)) (port : Z) : string :=
  let envLines :=
    map (fun kv => "          - name: " ++ fst kv ++ nl ++
                   "            value: " ++ quoted (snd kv)) env in
  let envBlock :=
    if (0 <? length envLines)%nat
    then "        env:" ++ nl ++ Join envLines nl else "" in
  "apiVersion: serving.knative.dev/v1" ++ nl ++
  "kind: Service" ++ nl ++
  "metadata:" ++ nl ++
  "  name: " ++ name ++ nl ++
  "  namespace: " ++ ns ++ nl ++
  "spec:" ++ nl ++
  "  template:" ++ nl ++
  "    metadata:" ++ nl ++
  "      annotations:" ++ nl ++
  "        autoscaling.knative.dev/minScale: " ++ quoted "1" ++ nl ++
  "    spec:" ++ nl ++
  "      containers:" ++ nl ++
  "        - image: " ++ image ++ nl ++
  "          ports:" ++ nl ++
  "            - containerPort: " ++ fmt_d port ++ nl ++
  "              name: http1" ++ nl ++
  envBlock ++ nl.

Definition kubectlArgs (kubecontext : string) : list string :=
  let args := ["apply"; "-f"; "-"] in
  if negb (isEmpty kubecontext) then (["--context"; kubecontext] ++ args)%list
  else args.

Definition knServiceApply (name image ns cpu mem : string)
    (env : gmap string string) (kubecontext : string) (port : Z) : Go error :=
  order <- rangeMap env ;;
  let y := newKnServiceYAML name image ns cpu mem order port in
  Run "kubectl" (kubectlArgs kubecontext) (Some y).

Section Deployer.

(** Library functions the code calls, kept abstract: [json.Marshal] on a
    report, [filepath.Join], [filepath.Dir] and the constant
    [clientcmd.RecommendedHomeFile]. *)
Variable json_Marshal : deployReport -> string.
Variable filepath_Join : list string -> string.
Variable filepath_Dir : string -> string.
Variable RecommendedHomeFile : string.

Definition getClient (namespace : string) : Go (string * error) :=
  c <- perform InClusterConfig ;;
  cfg <- match r_err c with
         | Some _ =>
             k <- os_Getenv "KUBECONFIG" ;;
             let kubeconfig := if isEmpty k then RecommendedHomeFile else k in
             b <- perform (BuildConfigFromFlags "" kubeconfig) ;;
             ret (r_err b)
         | None => ret None
         end ;;
  match cfg with
  | Some e => ret ("", Some e)
  | None =>
      n <- perform NewForConfig ;;
      match r_err n with
      | Some e => ret ("", Some e)
      | None => ret (if isEmpty namespace then "default" else namespace, None)
      end
  end.

(** Get, then Update when the object exists and Create otherwise. *)
Definition upsertSecret (ns name : string) (data : gmap string string) : Go error :=
  g <- perform (SecretsGet ns name) ;;
  match r_err g with
  | None => u <- perform (SecretsUpdate ns name data) ;; ret (r_err u)
  | Some _ => c <- perform (SecretsCreate ns name data) ;; ret (r_err c)
  end.

Definition attachDatabase (name namespace user password host : string) (port : Z)
    (db kubecontext : string) : Go error :=
  c <- getClient namespace ;;
  match snd c with
  | Some e => ret (Some e)
  | None =>
      let ns := fst c in
      let url := "postgres://" ++ user ++ ":" ++ password ++ "@" ++ host ++ ":"
                 ++ fmt_d port ++ "/" ++ db in
      upsertSecret ns (name ++ "-db") {[ "DATABASE_URL" := url ]}
  end.

Definition attachRedis (name namespace host : string) (port : Z)
    (password kubecontext : string) : Go error :=
  c <- getClient namespace ;;
  match snd c with
  | Some e => ret (Some e)
  | None =>
      let ns := fst c in
      let url := "redis://:" ++ password ++ "@" ++ host ++ ":" ++ fmt_d port in
      upsertSecret ns (name ++ "-redis") {[ "REDIS_URL" := url ]}
  end.

(** the loop of [createSecrets]: the first malformed pair ends it *)
Fixpoint secretData (pairs : list string) (data : gmap string string)
  : string + gmap string string :=
  match pairs with
  | [] => inr data
  | p :: rest =>
      match SplitN p "=" 2 with
      | [k; v] => secretData rest (<[k := v]> data)
      | _ => inl ("invalid secret pair: " ++ p)
      end
  end.

Definition createSecrets (name namespace : string) (pairs : list string)
    (kubecontext : string) : Go error :=
  c <- getClient namespace ;;
  match snd c with
  | Some e => ret (Some e)
  | None =>
      let ns := fst c in
      match secretData pairs ∅ with
      | inl e => ret (Some e)
      | inr data => upsertSecret ns (name ++ "-secrets") data
      end
  end.

Definition report (server : string) (payload : deployReport) : Go error :=
  let b := json_Marshal payload in
  Run "curl" ["-sS"; "-X"; "POST"; "-H"; "Content-Type: application/json";
              "-d"; b; server ++ "/deployments"] None.

Definition getProjectName : Go (string * error) :=
  w <- perform Getwd ;;
  match r_err w with
  | Some e => ret ("", Some e)
  | None =>
      let parts := Split (r_out w) "/" in
      if (length parts =? 0)%nat
      then ret ("", Some "unable to determine project name from current directory")
      else p <- index parts (length parts - 1) ;; ret (p, None)
  end.

Definition generateImageRef (projectName : string) : Go (string * error) :=
  region <- awsRegion ;;
  o <- Output "aws" identityArgs ;;
  match snd o with
  | Some _ =>
      a <- os_Getenv "AWS_ACCOUNT_ID" ;;
      accountID <-
        (if isEmpty a then
           ecrURL <- os_Getenv "ECR_URL" ;;
           if negb (isEmpty ecrURL) then
             let parts := Split ecrURL "." in
             match parts with
             | p0 :: _ =>
                 if Contains p0 "dkr"
                 then p <- index (Split p0 ".") 0 ;; ret p
                 else ret a
             | [] => ret a
             end
           else ret a
         else ret a) ;;
      if isEmpty accountID then
        Printf ("⚠️  Could not determine AWS account ID. "
                ++ "Using local image name for building." ++ nl) ;;;
        ret (projectName ++ ":latest", None)
      else
        ret (accountID ++ ".dkr.ecr." ++ region ++ ".amazonaws.com/"
             ++ projectName ++ ":latest", None)
  | None =>
      let accountID := TrimSpace (fst o) in
      if isEmpty accountID then ret ("", Some "AWS account ID is empty")
      else ret (accountID ++ ".dkr.ecr." ++ region ++ ".amazonaws.com/"
                ++ projectName ++ ":latest", None)
  end.

(** [os.Stat(p)] succeeded on something that is not a directory *)
Definition isFile (r : Resp) : bool :=
  match r_err r with None => negb (r_dir r) | Some _ => false end.

Definition findBundledPack : Go string :=
  e <- perform Executable ;;
  match r_err e with
  | Some _ => ret ""
  | None =>
      let execDir := filepath_Dir (r_out e) in
      let deployerDir := filepath_Join [execDir; "cmd"; "deployer"] in
      let packPath := filepath_Join [deployerDir; "pack"] in
      s <- perform (Stat packPath) ;;
      if isFile s then perform (Chmod packPath 493) ;;; ret packPath
      else
        let packPath := filepath_Join [execDir; "pack"] in
        s <- perform (Stat packPath) ;;
        if isFile s then perform (Chmod packPath 493) ;;; ret packPath
        else ret ""
  end.

Definition findPackCLI : Go string :=
  bundledPath <- findBundledPack ;;
  if negb (isEmpty bundledPath) then ret bundledPath
  else
    l <- perform (LookPath "pack") ;;
    match r_err l with
    | None => ret (r_out l)
    | Some _ => ret ""
    end.

(** [os.Stat(filepath.Join(appPath, marker))] returned no error *)
Definition hasMarker (appPath marker : string) : Go bool :=
  s <- perform (Stat (filepath_Join [appPath; marker])) ;;
  ret (match r_err s with None => true | Some _ => false end).

Definition createDockerfile (appPath : string) : Go string :=
  node <- hasMarker appPath "package.json" ;;
  if node then ret nodeDockerfile
  else
    py <- hasMarker appPath "requirements.txt" ;;
    if py then ret pythonDockerfile
    else
      gomod <- hasMarker appPath "go.mod" ;;
      if gomod then ret goDockerfile
      else ret defaultDockerfile.

Definition dockerBuildArgs (appPath imageRef : string) : list string :=
  ["build"; "--platform"; "linux/amd64"; "-t"; imageRef; "-f"; "-"; appPath].

Definition buildWithDocker (appPath imageRef : string) (envs : list string)
  : Go error :=
  dockerfile <- createDockerfile appPath ;;
  Run "docker" (dockerBuildArgs appPath imageRef) (Some dockerfile).

Definition packArgs (appPath imageRef : string) (envs : list string) : list string :=
  (["build"; imageRef; "--path"; appPath; "--builder";
    "paketobuildpacks/builder:tiny"; "--pull-policy"; "always"; "--verbose"]
   ++ flat_map (fun e => ["--env"; e]) envs)%list.

Definition buildApplication (appPath imageRef : string) (envs : list string)
  : Go error :=
  packPath <- findPackCLI ;;
  if isEmpty packPath then
    Printf ("Pack CLI not found, falling back to Docker build..." ++ nl) ;;;
    buildWithDocker appPath imageRef envs
  else
    let args := packArgs appPath imageRef envs in
    Printf ("Running pack command: " ++ packPath ++ " [" ++ Join args " " ++ "]"
            ++ nl) ;;;
    r <- Run packPath args None ;;
    match r with
    | Some e =>
        Printf ("Pack build failed: " ++ e ++ nl) ;;;
        Printf ("Falling back to Docker build..." ++ nl) ;;;
        buildWithDocker appPath imageRef envs
    | None => ret None
    end.

(** The attachment and reporting steps of the [deploy] command, run once
    the service has been applied. *)
Definition attachAndReport (f : DeployFlags) (projectName imageRef ns : string)
  : Go error :=
  db <- (if negb (isEmpty (dbHost f)) then
           Printf ("Attaching database..." ++ nl) ;;;
           attachDatabase projectName ns (dbUser f) (dbPassword f) (dbHost f)
                          (dbPort f) (dbName f) (kubecontext f)
         else ret None) ;;
  match db with
  | Some e => ret (Some ("database attach failed: " ++ e))
  | None =>
      rd <- (if negb (isEmpty (redisHost f)) then
               Printf ("Attaching Redis..." ++ nl) ;;;
               attachRedis projectName ns (redisHost f) (redisPort f)
                           (redisPassword f) (kubecontext f)
             else ret None) ;;
      match rd with
      | Some e => ret (Some ("redis attach failed: " ++ e))
      | None =>
          sc <- (if (0 <? length (secrets f))%nat then
                   Printf ("Creating secrets..." ++ nl) ;;;
                   createSecrets projectName ns (secrets f) (kubecontext f)
                 else ret None) ;;
          match sc with
          | Some e => ret (Some ("secrets creation failed: " ++ e))
          | None =>
              (if negb (isEmpty (serverURL f)) then
                 t1 <- perform TimeNow ;;
                 t2 <- perform TimeNow ;;
                 report (serverURL f)
                   {| ID := projectName ++ ":" ++ fmt_d (r_num t1);
                      Project := projectName;
                      Namespace := ns;
                      Image := imageRef;
                      Status := "deployed";
                      Description := "Application deployed with auto-build and push";
                      CreatedAt := r_num t2 |} ;;;
                 ret tt
               else ret tt) ;;;
              Printf ("Successfully deployed " ++ projectName ++ " to namespace "
                      ++ ns ++ nl) ;;;
              ret None
          end
      end
  end.

(** [RunE] of [newDeployCmd], steps 1 to 3.5: build, push, apply the
    service, configure the pull permissions.  [inl] is the error the
    command returns at once; [inr] carries the project name, the image
    reference and the namespace on to the attachment steps. *)
Definition deployService (f : DeployFlags)
  : Go (string + string * string * string) :=
  pn <- getProjectName ;;
  match snd pn with
  | Some e => ret (inl ("failed to detect project name: " ++ e))
  | None =>
      let projectName := fst pn in
      ir <- generateImageRef projectName ;;
      match snd ir with
      | Some e => ret (inl ("failed to generate image reference: " ++ e))
      | None =>
          let imageRef := fst ir in
          let ns := if isEmpty (namespace f) then "default" else namespace f in
          Printf ("Building application " ++ projectName ++ "..." ++ nl) ;;;
          b <- buildApplication "." imageRef (envs f) ;;
          match b with
          | Some e => ret (inl ("build failed: " ++ e))
          | None =>
              Printf ("Pushing image " ++ imageRef ++ "..." ++ nl) ;;;
              p <- dockerPushWithECRLogin imageRef ;;
              match p with
              | Some e => ret (inl ("push failed: " ++ e))
              | None =>
                  Printf ("Deploying service " ++ projectName ++ "..." ++ nl) ;;;
                  d <- knServiceApply projectName imageRef ns (cpu f) (mem f)
                                      (toEnvMap (envs f)) (kubecontext f) (port f) ;;
                  match d with
                  | Some e => ret (inl ("deploy failed: " ++ e))
                  | None =>
                      Printf ("Configuring ECR pull permissions..." ++ nl) ;;;
                      c <- perform (ConfigureECRPullPermissions projectName ns
                                      (kubecontext f)) ;;
                      match r_err c with
                      | Some e =>
                          Printf ("Warning: Failed to configure ECR pull permissions: "
                                  ++ e ++ nl) ;;;
                          Printf ("The service may not be able to pull images from ECR."
                                  ++ nl)
                      | None => ret tt
                      end ;;;
                      ret (inr (projectName, imageRef, ns))
                  end
              end
          end
      end
  end.

(** [RunE] of [newDeployCmd] *)
Definition deployRun (f : DeployFlags) : Go error :=
  s <- deployService f ;;
  match s with
  | inl e => ret (Some e)
  | inr (projectName, imageRef, ns) => attachAndReport f projectName imageRef ns
  end.

End Deployer.

(* ===================================================================== *)
(** ** Reading a trace                                                    *)
(* ===================================================================== *)

(** The steps of the push stage. *)
Inductive Step :=
| Identity | Tag | Credential | Login | CheckRepo | CreateRepo | Push.

Global Instance Step_eq_dec : EqDecision Step.
Proof. solve_decision. Defined.

(** Which step of the push stage a command is, by program and verb. *)
Definition stepOf (c : Cmd) : option Step :=
  match args c with
  | a1 :: rest =>
      if prog c =? "aws" then
        if a1 =? "sts" then Some Identity
        else if a1 =? "ecr" then
          match rest with
          | a2 :: _ =>
              if a2 =? "get-login-password" then Some Credential
              else if a2 =? "describe-repositories" then Some CheckRepo
              else if a2 =? "create-repository" then Some CreateRepo
              else None
          | [] => None
          end
        else None
      else if prog c =? "docker" then
        if a1 =? "tag" then Some Tag
        else if a1 =? "login" then Some Login
        else if a1 =? "push" then Some Push
        else None
      else None
  | [] => None
  end.

Definition succeeded (r : Resp) : bool :=
  match r_err r with None => true | Some _ => false end.

Definition stepOfEvent (ev : Event) : option (Step * bool) :=
  match fst ev with
  | Exec c => match stepOf c with
              | Some s => Some (s, succeeded (snd ev))
              | None => None
              end
  | _ => None
  end.

(** The push-stage steps of a trace, in the order performed, each with
    whether it succeeded. *)
Definition steps (tr : Trace) : list (Step * bool) := omap stepOfEvent tr.

(** Position of a step in the order of the stage. *)
Definition rank (s : Step) : nat :=
  match s with
  | Identity => 0 | Tag => 1 | Credential => 2 | Login => 3
  | CheckRepo => 4 | CreateRepo => 5 | Push => 6
  end.

(** The runs of the push stage from the credential step on. *)
Inductive AuthRun : list (Step * bool) -> Result error -> Prop :=
| credential_failed e :
    AuthRun [(Credential, false)] (Ret (Some e))
| login_failed e :
    AuthRun [(Credential, true); (Login, false)] (Ret (Some e))
| create_failed e :
    AuthRun [(Credential, true); (Login, true); (CheckRepo, false);
             (CreateRepo, false)] (Ret (Some e))
| push_failed_existing e :
    AuthRun [(Credential, true); (Login, true); (CheckRepo, true);
             (Push, false)] (Ret (Some e))
| push_failed_created e :
    AuthRun [(Credential, true); (Login, true); (CheckRepo, false);
             (CreateRepo, true); (Push, false)] (Ret (Some e))
| pushed_existing :
    AuthRun [(Credential, true); (Login, true); (CheckRepo, true);
             (Push, true)] (Ret None)
| pushed_created :
    AuthRun [(Credential, true); (Login, true); (CheckRepo, false);
             (CreateRepo, true); (Push, true)] (Ret None).

(** The runs of the whole push stage. *)
Inductive PushRun : list (Step * bool) -> Result error -> Prop :=
| identity_failed e :
    PushRun [(Identity, false)] (Ret (Some e))
| account_empty e :
    PushRun [(Identity, true)] (Ret (Some e))
| tag_failed e :
    PushRun [(Identity, true); (Tag, false)] (Ret (Some e))
| no_repository msg :
    PushRun [(Identity, true)] (Panic msg)
| authenticated_remote ss res :
    AuthRun ss res -> PushRun ((Identity, true) :: ss) res
| authenticated_tagged ss res :
    AuthRun ss res -> PushRun ((Identity, true) :: (Tag, true) :: ss) res.

(** The report of a run: [curl -sS -X POST ...]. *)
Definition isReport (o : Op) : bool :=
  match o with
  | Exec c =>
      (prog c =? "curl") &&
      match args c with
      | a1 :: a2 :: a3 :: _ => (a1 =? "-sS") && (a2 =? "-X") && (a3 =? "POST")
      | _ => false
      end
  | _ => false
  end.

(** The operations of the attachment steps whose error makes the step
    return an error, with that error. *)
Definition attachFailure (ev : Event) : option string :=
  match fst ev with
  | BuildConfigFromFlags _ _ | NewForConfig
  | SecretsUpdate _ _ _ | SecretsCreate _ _ _ => r_err (snd ev)
  | _ => None
  end.

(** An operation of the Kubernetes client. *)
Definition isClientOp (o : Op) : bool :=
  match o with
  | InClusterConfig | BuildConfigFromFlags _ _ | NewForConfig
  | SecretsGet _ _ | SecretsUpdate _ _ _ | SecretsCreate _ _ _ => true
  | _ => false
  end.

(** The service descriptor was applied: [kubectl ... apply -f -] ran
    without error. *)
Definition isApply (ev : Event) : bool :=
  match fst ev with
  | Exec c => (prog c =? "kubectl") && succeeded (snd ev) &&
              bool_decide (["apply"; "-f"; "-"] `suffix_of` args c)
  | _ => false
  end.


(** Two worlds that differ at most in what the report's POST answers. *)
Definition agreeExceptReport (w1 w2 : World) : Prop :=
  range_order w1 = range_order w2 /\
  forall tr o, isReport o = false -> respond w1 tr o = respond w2 tr o.

(* ===================================================================== *)
(** ** Runs: what a computation does to the trace                         *)
(* ===================================================================== *)

(** [runs m Q]: from every world and every trace, [m] extends the trace
    with some events [evs] and ends with a result [res] such that
    [Q evs res]. *)
Definition runs {A} (m : Go A) (Q : Trace -> Result A -> Prop) : Prop :=
  forall w tr, exists evs res, m w tr = (res, (tr ++ evs)%list) /\ Q evs res.

(** An event that is neither the report nor an operation of the Kubernetes
    client: all that the stages before the attachment steps perform. *)
Definition quiet (ev : Event) : Prop :=
  isReport (fst ev) = false /\ isClientOp (fst ev) = false.

(** A computation all of whose events are quiet. *)
Definition quietly {A} (m : Go A) : Prop :=
  runs m (fun evs _ => Forall quiet evs).

(** A computation that runs the same in two such worlds. *)
Definition stable {A} (m : Go A) : Prop :=
  forall w1 w2 tr, agreeExceptReport w1 w2 -> m w1 tr = m w2 tr.

(** A computation that ends the same in two such worlds. *)
Definition sameResult {A} (m : Go A) : Prop :=
  forall w1 w2 tr, agreeExceptReport w1 w2 -> fst (m w1 tr) = fst (m w2 tr).

(** The service descriptor was applied in these events. *)
Definition applied (evs : Trace) : Prop := Exists (fun ev => isApply ev = true) evs.

(** The steps without which the stage cannot push. *)
Definition mandatory (s : Step) : bool :=
  match s with Tag | CreateRepo => false | _ => true end.

(** The external commands of a trace, in the order run. *)
Definition execs (tr : Trace) : list (Cmd * Resp) :=
  omap (fun ev => match fst ev with
                  | Exec c => Some (c, snd ev)
                  | _ => None
                  end) tr.

Definition nofail (ev : Event) : Prop := attachFailure ev = None.
Definition unreported (ev : Event) : Prop := isReport (fst ev) = false.

(** The runs of one attachment step: done; or ended by the failing
    operation, whose error is returned; or ended by an error of the step's
    own, one of [own], without a failing operation. *)
Inductive StepRun (own : string -> Prop) : Trace -> Result error -> Prop :=
| step_done evs :
    Forall nofail evs -> Forall unreported evs -> StepRun own evs (Ret None)
| step_failed pre ev e :
    Forall nofail pre -> Forall unreported (pre ++ [ev])%list ->
    attachFailure ev = Some e ->
    StepRun own (pre ++ [ev])%list (Ret (Some e))
| step_rejected evs e :
    own e -> Forall nofail evs -> Forall unreported evs ->
    StepRun own evs (Ret (Some e)).

Definition none : string -> Prop := fun _ => False.

(** The error of [createSecrets] on a malformed pair. *)
Definition malformed (pairs : list string) : string -> Prop :=
  fun e => exists p, In p pairs /\ e = "invalid secret pair: " ++ p.

Definition labels : list string :=
  ["database attach failed: "; "redis attach failed: ";
   "secrets creation failed: "].

(** The runs of the attachment and reporting steps. *)
Inductive AttachRun (f : DeployFlags) : Trace -> Result error -> Prop :=
| attach_failed pre ev e label :
    Forall nofail pre -> Forall unreported (pre ++ [ev])%list ->
    attachFailure ev = Some e -> In label labels ->
    AttachRun f (pre ++ [ev])%list (Ret (Some (label ++ e)))
| attach_rejected evs e :
    malformed (secrets f) e -> Forall nofail evs -> Forall unreported evs ->
    AttachRun f evs (Ret (Some ("secrets creation failed: " ++ e)))
| attach_done evs :
    Forall nofail evs -> (serverURL f = "" -> Forall unreported evs) ->
    AttachRun f evs (Ret None).

(* ===================================================================== *)
(** ** The runs of the stages                                             *)
(* ===================================================================== *)

(** The push stage once the image reference is resolved: the runs of the
    authenticated tail, or, for a reference without a slash, a panic before
    any further command. *)
Definition ResolvedRun (imageRef : string) (ss : list (Step * bool))
    (res : Result error) : Prop :=
  AuthRun ss res \/
  (length (Split imageRef "/") = 1%nat /\ ss = [] /\
   res = Panic "runtime error: index out of range [1] with length 1").

Section BuildSpec.

Variable filepath_Join : list string -> string.

Definition marker (appPath name : string) : Op :=
  Stat (filepath_Join [appPath; name]).

Definition present (r : Resp) : Prop := r_err r = None.
Definition absent (r : Resp) : Prop := r_err r <> None.

(** The probes of the source tree and the Dockerfile they select. *)
Inductive Selected (appPath : string) : Trace -> string -> Prop :=
| selected_node r :
    present r ->
    Selected appPath [(marker appPath "package.json", r)] nodeDockerfile
| selected_python r1 r2 :
    absent r1 -> present r2 ->
    Selected appPath [(marker appPath "package.json", r1);
                      (marker appPath "requirements.txt", r2)] pythonDockerfile
| selected_go r1 r2 r3 :
    absent r1 -> absent r2 -> present r3 ->
    Selected appPath [(marker appPath "package.json", r1);
                      (marker appPath "requirements.txt", r2);
                      (marker appPath "go.mod", r3)] goDockerfile
| selected_default r1 r2 r3 :
    absent r1 -> absent r2 -> absent r3 ->
    Selected appPath [(marker appPath "package.json", r1);
                      (marker appPath "requirements.txt", r2);
                      (marker appPath "go.mod", r3)] defaultDockerfile.

Definition dockerBuild (appPath imageRef dockerfile : string) : Cmd :=
  mkCmd "docker" (dockerBuildArgs appPath imageRef) (Some dockerfile) false.

(** The fallback: probe the markers, then one [docker build] fed the
    selected Dockerfile, whose outcome is the outcome. *)
Inductive DockerRun (appPath imageRef : string) : Trace -> Result error -> Prop :=
| docker_run probes dockerfile r :
    Selected appPath probes dockerfile ->
    DockerRun appPath imageRef
      (probes ++ [(Exec (dockerBuild appPath imageRef dockerfile), r)])%list
      (Ret (r_err r)).

Definition packBuild (packPath appPath imageRef : string) (envs : list string)
  : Cmd :=
  mkCmd packPath (packArgs appPath imageRef envs) None false.

(** The search for the pack tool ended without one: the lookup on the
    path, its last operation, failed or gave the empty path. *)
Definition NoPack (evs : Trace) : Prop :=
  exists pre l, evs = (pre ++ [(LookPath "pack", l)])%list /\
                (absent l \/ r_out l = "").

(** Lines printed, nothing else. *)
Definition notices (evs : Trace) : Prop :=
  Forall (fun ev => exists text, fst ev = Print text) evs.

(** The runs of the build stage: the pack build comes first, and the
    Docker build is the fallback for a pack tool that is missing or fails. *)
Inductive BuildRun (appPath imageRef : string) (envs : list string)
  : Trace -> Result error -> Prop :=
| built_by_pack search note packPath r :
    execs search = [] -> packPath <> "" -> notices note -> present r ->
    BuildRun appPath imageRef envs
      (search ++ note ++ [(Exec (packBuild packPath appPath imageRef envs), r)])%list
      (Ret None)
| fallback_after_pack search note packPath r note' fallback res :
    execs search = [] -> packPath <> "" -> notices note -> absent r ->
    notices note' -> DockerRun appPath imageRef fallback res ->
    BuildRun appPath imageRef envs
      (search ++ note ++ [(Exec (packBuild packPath appPath imageRef envs), r)]
              ++ note' ++ fallback)%list
      res
| fallback_without_pack search note fallback res :
    execs search = [] -> NoPack search -> notices note ->
    DockerRun appPath imageRef fallback res ->
    BuildRun appPath imageRef envs (search ++ note ++ fallback)%list res.

End BuildSpec.

(** The runs of the [deploy] command: stopped before the attachments, with
    an error or a panic; or gone on to them after a successful apply. *)
Inductive DeployRun (f : DeployFlags) : Trace -> Result error -> Prop :=
| stopped_early evs res :
    Forall quiet evs -> res <> Ret None -> DeployRun f evs res
| attached pre evs res :
    Forall quiet pre -> applied pre -> AttachRun f evs res ->
    DeployRun f (pre ++ evs)%list res.

(* ===================================================================== *)
(** ** The diagnostic agent: classifier and fix selector                  *)
(* ===================================================================== *)

Module Agent.

(** Modelled from the spec: the agent's types [ErrorPattern],
    [FixStrategy] and [DeploymentError] (data model of the spec; the agent's
    source file is not part of the sources, only its tests are).  A pattern
    is an identifier, which is the category tag the tests compare, and the
    trigger phrases of its match predicate; a strategy is a named remedy
    with a confidence, a description and commands; a deployment error owns
    its pattern and the ordered candidate strategies.  Confidences are
    rationals: the spec bounds them in [0,1], where the order of the
    decimal constants is the order of their floating-point values.  The
    severity tier of a pattern is left out: no property below reads it. *)
Record ErrorPattern := mkPattern {
  Name : string;
  Triggers : list string
}.

Record FixStrategy := mkFix {
  FixName : string;
  Confidence : Q;
  FixDescription : string;
  Commands : list string
}.

Record DeploymentError := mkError {
  Pattern : ErrorPattern;
  Suggestions : list FixStrategy
}.



(** Modelled from the spec: lowercase normalisation of a log line (the
    classifier's first step), on the ASCII letters. *)
Definition lowerByte (c : ascii) : ascii :=
  let n := nat_of_ascii c in
  if ((65 <=? n) && (n <=? 90))%nat then ascii_of_nat (n + 32) else c.

Fixpoint ToLower (s : string) : string :=
  match s with
  | EmptyString => EmptyString
  | String c s' => String (lowerByte c) (ToLower s')
  end.






(** Modelled from the spec: ranking by descending confidence with a stable
    sort (section 4.7).  [insertFix] puts a candidate in front of the first
    one whose confidence is not higher, so that of two equal candidates the
    one registered first stays first. *)
Fixpoint insertFix (x : FixStrategy) (l : list FixStrategy) : list FixStrategy :=
  match l with
  | [] => [x]
  | y :: l' =>
      if Qle_bool (Confidence y) (Confidence x) then x :: y :: l'
      else y :: insertFix x l'
  end.

Fixpoint rankFixes (l : list FixStrategy) : list FixStrategy :=
  match l with
  | [] => []
  | x :: l' => insertFix x (rankFixes l')
  end.

(** Modelled from the spec: [selectBestFix], the local fix selector of
    section 4.7: none for no error or no candidate, otherwise the top entry
    of the ranking.  The result is a strategy or nothing; the function has
    no error result. *)
Definition selectBestFix (e : option DeploymentError) : option FixStrategy :=
  match e with
  | None => None
  | Some d =>
      match Suggestions d with
      | [] => None
      | _ :: _ => head (rankFixes (Suggestions d))
      end
  end.


(** A registry with two categories, each with a trigger phrase that occurs
    in some lowercased line: what the spec asks of the registry, which has
    eight categories, each exercised by a test line. *)
Definition twoCategories (patterns : list ErrorPattern) : Prop :=
  exists p q tp tq lp lq,
    In p patterns /\ In q patterns /\ Name p <> Name q /\
    In tp (Triggers p) /\ In tq (Triggers q) /\
    Contains (ToLower lp) tp = true /\ Contains (ToLower lq) tq = true.

(** Two patterns for the examples, under two of the names the tests of the
    agent compare; the phrases are the examples' own. *)
Definition examplePatterns : list ErrorPattern :=
  [ mkPattern "ecr_auth_failed" ["authentication failed"];
    mkPattern "permission_denied" ["permission denied"] ].

End Agent.

(* ===================================================================== *)
(** ** Concrete worlds, for the examples                                  *)
(* ===================================================================== *)

Module Demo.

Definition ok (out : string) : Resp := mkResp None out 0 false.
Definition failed (e : string) : Resp := mkResp (Some e) "" 0 false.

(** A development machine: no pack tool, a Node project in
    [/home/dev/shop], valid cloud credentials, a registry without the
    repository, a reachable cluster.  [clusterWrites] tells whether the
    cluster accepts a new credential object, [postOk] whether the tracking
    server accepts the report. *)
Definition respondDev (clusterWrites postOk : bool) (tr : Trace) (o : Op) : Resp :=
  match o with
  | Exec c =>
      if isReport o then
        if postOk then ok "" else failed "exit status 7"
      else match stepOf c with
           | Some Identity => ok ("123456789012" ++ nl)
           | Some Credential => ok "secret-token"
           | Some CheckRepo => failed "exit status 254"
           | _ => ok ""
           end
  | Getenv _ => ok ""
  | Getwd => ok "/home/dev/shop"
  | Stat path =>
      if path =? "package.json" then ok "" else failed "no such file or directory"
  | LookPath _ => failed "executable file not found in $PATH"
  | Executable => ok "/usr/local/bin/flow"
  | Chmod _ _ => ok ""
  | TimeNow => mkResp None "" 1700000000000000000 false
  | Print _ => ok ""
  | InClusterConfig => failed "not running in a cluster"
  | BuildConfigFromFlags _ _ => ok ""
  | NewForConfig => ok ""
  | SecretsGet _ _ => failed "secrets not found"
  | SecretsUpdate _ _ _ => ok ""
  | SecretsCreate _ _ _ =>
      if clusterWrites then ok "" else failed "connection refused"
  | ConfigureECRPullPermissions _ _ _ => ok ""
  end.

Definition dev (clusterWrites postOk : bool) : World :=
  {| respond := respondDev clusterWrites postOk;
     range_order := map_to_list |}.

Definition marshal (r : deployReport) : string :=
  "{" ++ quoted "id" ++ ":" ++ quoted (ID r) ++ "," ++
  quoted "project" ++ ":" ++ quoted (Project r) ++ "," ++
  quoted "status" ++ ":" ++ quoted (Status r) ++ "}".

(** joins the elements that are not [.] *)
Definition joinPath (elems : list string) : string :=
  Join (List.filter (fun e => negb (e =? ".")) elems) "/".

Definition dirOf (path : string) : string := "/usr/local/bin".

Definition home : string := "/home/dev/.kube/config".

Definition flags : DeployFlags :=
  {| namespace := ""; port := 8080; cpu := "250m"; mem := "256Mi";
     envs := ["MODE=prod"]; serverURL := "http://tracker.local";
     kubecontext := "";
     dbHost := "db.internal"; dbName := "shop"; dbUser := "app";
     dbPassword := "changeme"; dbPort := 5432;
     redisHost := ""; redisPassword := ""; redisPort := 6379;
     secrets := [] |}.

(** The [deploy] command on the development machine. *)
Definition deploy (f : DeployFlags) (w : World) : Result error * Trace :=
  run (deployRun marshal joinPath dirOf home f) w.

End Demo.



(** A candidate strategy of a given confidence. *)
Definition candidate (name : string) (confidence : Q) : Agent.FixStrategy :=
  Agent.mkFix name confidence "" [].

(* ===================================================================== *)
(** ** The other commands of the deployer and the tracking server         *)
(* ===================================================================== *)

Section Commands.

Variable RecommendedHomeFile : string.

(** [RunE] of [newAttachDBCmd] *)
Definition attachDBCmd (name namespace user password host db : string) (port : Z)
  : Go error :=
  if isEmpty name || isEmpty host || isEmpty db
  then ret (Some "name, host, db required")
  else
    let ns := if isEmpty namespace then "default" else namespace in
    c <- getClient RecommendedHomeFile ns ;;
    match snd c with
    | Some e => ret (Some e)
    | None =>
        let ns2 := fst c in
        let url := "postgres://" ++ user ++ ":" ++ password ++ "@" ++ host ++ ":"
                   ++ fmt_d port ++ "/" ++ db in
        upsertSecret ns2 (name ++ "-db") {[ "DATABASE_URL" := url ]}
    end.

(** [RunE] of [newAttachRedisCmd] *)
Definition attachRedisCmd (name namespace host password : string) (port : Z)
  : Go error :=
  if isEmpty name || isEmpty host
  then ret (Some "name and host required")
  else
    let ns := if isEmpty namespace then "default" else namespace in
    c <- getClient RecommendedHomeFile ns ;;
    match snd c with
    | Some e => ret (Some e)
    | None =>
        let ns2 := fst c in
        let url := "redis://:" ++ password ++ "@" ++ host ++ ":" ++ fmt_d port in
        upsertSecret ns2 (name ++ "-redis") {[ "REDIS_URL" := url ]}
    end.

(** the loop of [newSecretsCmd] *)
Fixpoint pairData (pairs : list string) (data : gmap string string)
  : string + gmap string string :=
  match pairs with
  | [] => inr data
  | p :: rest =>
      match SplitN p "=" 2 with
      | [k; v] => pairData rest (<[k := v]> data)
      | _ => inl ("invalid pair: " ++ p)
      end
  end.

(** [RunE] of [newSecretsCmd]: the secret bears the given name itself *)
Definition secretsCmd (name namespace : string) (pairs : list string) : Go error :=
  if isEmpty name then ret (Some "name required")
  else
    let ns := if isEmpty namespace then "default" else namespace in
    c <- getClient RecommendedHomeFile ns ;;
    match snd c with
    | Some e => ret (Some e)
    | None =>
        let ns2 := fst c in
        match pairData pairs ∅ with
        | inl e => ret (Some e)
        | inr data => upsertSecret ns2 name data
        end
    end.

End Commands.

(** [RunE] of [newPushCmd] *)
Definition pushCmd (imageRef : string) : Go error :=
  if isEmpty imageRef then ret (Some "image is required")
  else dockerPushWithECRLogin imageRef.

(** The tracking server: the handlers of [main], one request at a time. *)
Module ApiServer.

Record Deployment := mkDeployment {
  ID : string;
  Project : string;
  Namespace : string;
  Image : string;
  Status : string;
  Description : string;
  CreatedAt : Z
}.

(** [Store.deployments] *)
Definition Store : Type := gmap string Deployment.

Inductive Response :=
| OK (d : Deployment)
| BadRequest (msg : string).

Definition withID (d : Deployment) (id : string) : Deployment :=
  {| ID := id; Project := Project d; Namespace := Namespace d; Image := Image d;
     Status := Status d; Description := Description d; CreatedAt := CreatedAt d |}.

(** [POST /deployments]: [body] is what decoding the request body gives, an
    error or a deployment; [fresh] is what [uuid.NewString()] would
    return. *)
Definition postDeployment (body : string + Deployment) (fresh : string)
    (store : gmap string Deployment) : Response * gmap string Deployment :=
  match body with
  | inl err => (BadRequest err, store)
  | inr d =>
      let d := if isEmpty (ID d) then withID d fresh else d in
      (OK d, <[ID d := d]> store)
  end.

(** [GET /deployments]: the stored deployments in the order [order] in
    which the runtime ranges over the map. *)
Definition listDeployments (order : list (string * Deployment)) : list Deployment :=
  map snd order.

(** The store after a sequence of POST requests, from the empty store of
    [main]. *)
Definition serve (requests : list ((string + Deployment) * string))
  : gmap string Deployment :=
  foldl (fun store rq => snd (postDeployment (fst rq) (snd rq) store)) ∅ requests.

(** Every record is stored under its own id. *)
Definition keyed (store : gmap string Deployment) : Prop :=
  forall id d, store !! id = Some d -> ID d = id.

End ApiServer.

(** ** More ways of reading a trace *)

(** An operation on the secrets of the cluster. *)
Definition isSecretOp (o : Op) : bool :=
  match o with
  | SecretsGet _ _ | SecretsUpdate _ _ _ | SecretsCreate _ _ _ => true
  | _ => false
  end.

(** The operations of a trace on the secrets of the cluster. *)
Definition secretOps (tr : Trace) : list Event :=
  List.filter (fun ev => isSecretOp (fst ev)) tr.

(** The one write that follows the lookup of a secret: an update of the
    secret found, a creation of the secret missing. *)
Definition writeAfter (g : Resp) (ns name : string) (data : gmap string string)
  : Op :=
  match r_err g with
  | None => SecretsUpdate ns name data
  | Some _ => SecretsCreate ns name data
  end.

(** The operations that give the client, with the error of the one that
    failed: the configuration read from the kubeconfig file and the client
    made from a configuration.  (A failed [rest.InClusterConfig] is no
    failure: the kubeconfig file is read instead.) *)
Definition clientFailure (ev : Event) : option string :=
  match fst ev with
  | BuildConfigFromFlags _ _ | NewForConfig => r_err (snd ev)
  | _ => None
  end.

(** The client was built: its last operation made it, none of its
    operations failed, and no secret was touched. *)
Definition clientBuilt (evs : Trace) : Prop :=
  (exists n, last evs = Some (NewForConfig, n) /\ r_err n = None) /\
  Forall (fun ev => clientFailure ev = None) evs /\
  secretOps evs = [].

(** The client could not be built: the last operation is the one that
    failed, with the error [e], and no secret was touched. *)
Definition clientFailed (evs : Trace) (e : string) : Prop :=
  exists pre ev, evs = (pre ++ [ev])%list /\ clientFailure ev = Some e /\
                 Forall (fun ev => clientFailure ev = None) pre /\
                 secretOps evs = [].

(** The runs of an attachment on the secret [name] with the entries
    [data]: the client cannot be built, no secret is touched and the step
    fails with the error of the operation that failed; or the client is
    built, the secret is looked up once, in the namespace given ([default]
    for the empty one), then written once, and the outcome of the write is
    the outcome of the step. *)
Inductive UpsertRun (namespace name : string) (data : gmap string string)
  : Trace -> Result error -> Prop :=
| upsert_no_client evs e :
    clientFailed evs e -> UpsertRun namespace name data evs (Ret (Some e))
| upsert_written client g r :
    let ns := if isEmpty namespace then "default" else namespace in
    clientBuilt client ->
    UpsertRun namespace name data
      (client ++ [(SecretsGet ns name, g); (writeAfter g ns name data, r)])%list
      (Ret (r_err r)).

(** The runs of [createSecrets] on pairs of which [p] is the first without
    an equals sign: the client cannot be built and its error is returned; or
    it is built and the pair is refused.  No secret is touched. *)
Inductive RefusedRun (p : string) : Trace -> Result error -> Prop :=
| refused_no_client evs e :
    clientFailed evs e -> RefusedRun p evs (Ret (Some e))
| refused_pair evs :
    clientBuilt evs -> RefusedRun p evs (Ret (Some ("invalid secret pair: " ++ p))).

(** The pairs that have an equals sign. *)
Definition wellFormed (pairs : list string) : Prop :=
  Forall (fun p => Contains p "=" = true) pairs.

(** The last piece of a working directory cut at its slashes: the project
    name that [getProjectName] returns. *)
Definition projectNameOf (wd : string) : string :=
  default "" (last (Split wd "/")).

(** The marker by which the push stage tells a registry reference from a
    local image name. *)
Definition registryMarker : string := ".dkr.ecr.".

(** A machine on which the first call of the cloud CLI fails and the later
    ones succeed, in a working directory whose name holds the registry
    marker. *)
Module Flaky.

Definition identified (tr : Trace) : bool :=
  existsb (fun ev => match fst ev with
                     | Exec c => match stepOf c with
                                 | Some Identity => true
                                 | _ => false
                                 end
                     | _ => false
                     end) tr.

Definition respondFlaky (tr : Trace) (o : Op) : Resp :=
  match o with
  | Exec c =>
      match stepOf c with
      | Some Identity =>
          if identified tr then Demo.ok ("123456789012" ++ nl)
          else Demo.failed "exit status 255"
      | _ => Demo.ok ""
      end
  | Getwd => Demo.ok "/srv/mirror.dkr.ecr.backup"
  | Stat _ => Demo.failed "no such file or directory"
  | LookPath _ => Demo.failed "executable file not found in $PATH"
  | Executable => Demo.ok "/usr/local/bin/flow"
  | _ => Demo.ok ""
  end.

Definition world : World :=
  {| respond := respondFlaky; range_order := map_to_list |}.

End Flaky.

(** The two variables that name the region. *)
Definition isRegionEnv (ev : Event) : Prop :=
  fst ev = Getenv "AWS_REGION" \/ fst ev = Getenv "AWS_DEFAULT_REGION".

(** A registry reference for an account, a region and a project. *)
Definition registryRef (account region project : string) : string :=
  account ++ ".dkr.ecr." ++ region ++ ".amazonaws.com/" ++ project ++ ":latest".

(** The working directory was asked first and its name, as an image name,
    holds the registry marker. *)
Definition markedDirectory (evs : Trace) : Prop :=
  exists r, head evs = Some (Getwd, r) /\
            Contains (projectNameOf (r_out r) ++ ":latest") registryMarker = true.

(** Two deployment reports, as the deployer would post them: one that
    carries its id and one that leaves it to the server. *)
Module Posts.
Import ApiServer.

Definition report1 : Deployment :=
  mkDeployment "shop:1700000000000000000" "shop" "default" "shop:latest"
               "deployed" "first" 1.

Definition report2 : Deployment :=
  mkDeployment "" "shop" "default" "shop:latest" "deployed" "second" 2.

End Posts.

(** A machine without cloud credentials whose environment names the
    registry in the documented form. *)
Module Offline.

Definition registry : string := "123456789012.dkr.ecr.us-east-1.amazonaws.com".

Definition respondOffline (tr : Trace) (o : Op) : Resp :=
  match o with
  | Exec _ => Demo.failed "exit status 255"
  | Getenv name => if name =? "ECR_URL" then Demo.ok registry else Demo.ok ""
  | Getwd => Demo.ok "/home/dev/shop"
  | Stat _ => Demo.failed "no such file or directory"
  | LookPath _ => Demo.failed "executable file not found in $PATH"
  | _ => Demo.ok ""
  end.

Definition world : World :=
  {| respond := respondOffline; range_order := map_to_list |}.

End Offline.






(** The run ended with a successful [docker push] of [target]. *)
Definition pushed (target : string) (evs : Trace) : Prop :=
  exists r, last evs = Some (Exec (mkCmd "docker" ["push"; target] None false), r) /\
            r_err r = None.

(** The local image was given its registry name before anything was
    pushed. *)
Definition taggedAs (imageRef target : string) (ev : Event) : Prop :=
  match fst ev with
  | Exec c =>
      match stepOf c with
      | Some Tag => args c = ["tag"; imageRef; target]
      | Some Push => args c = ["push"; target]
      | _ => True
      end
  | _ => True
  end.



(** A computation all of whose events satisfy [P]. *)
Definition always {A} (P : Event -> Prop) (m : Go A) : Prop :=
  runs m (fun evs _ => Forall P evs).

(** A [build] command, of the pack tool or of Docker, that succeeded. *)
Definition isBuilt (ev : Event) : bool :=
  match fst ev with
  | Exec c =>
      succeeded (snd ev) &&
      match args c with
      | a :: _ => a =? "build"
      | [] => false
      end
  | _ => false
  end.

(** A [docker push], whatever its outcome, and one that succeeded. *)
Definition isPushAttempt (ev : Event) : bool :=
  match stepOfEvent ev with
  | Some (Push, _) => true
  | _ => false
  end.

Definition isPushed (ev : Event) : bool :=
  match stepOfEvent ev with
  | Some (Push, ok) => ok
  | _ => false
  end.

(** A [kubectl ... apply -f -], whatever its outcome. *)
Definition isApplyAttempt (ev : Event) : bool :=
  match fst ev with
  | Exec c => (prog c =? "kubectl") &&
              bool_decide (["apply"; "-f"; "-"] `suffix_of` args c)
  | _ => false
  end.

(** How far a run has come: whether an image has been built, and whether,
    after that, it has been pushed. *)
Definition advance (st : bool * bool) (ev : Event) : bool * bool :=
  (fst st || isBuilt ev, snd st || (fst st && isPushed ev)).

Definition progress (st : bool * bool) (evs : Trace) : bool * bool :=
  foldl advance st evs.

(** The stages gate one another: nothing is pushed before an image has been
    built, nothing is applied before that image has been pushed. *)
Definition allowed (st : bool * bool) (ev : Event) : bool :=
  implb (isPushAttempt ev) (fst st) && implb (isApplyAttempt ev) (snd st).

Fixpoint gated (st : bool * bool) (evs : Trace) : bool :=
  match evs with
  | [] => true
  | ev :: rest => allowed st ev && gated (advance st ev) rest
  end.

(** From state [st] on, the events are gated, and a run that went through
    has built and pushed. *)
Definition stagedFrom (st : bool * bool) (evs : Trace) (through : Prop) : Prop :=
  gated st evs = true /\ (through -> progress st evs = (true, true)).

(** An event that neither pushes nor applies; one that does not apply. *)
Definition idle (ev : Event) : Prop :=
  isPushAttempt ev = false /\ isApplyAttempt ev = false.

Definition notApply (ev : Event) : Prop := isApplyAttempt ev = false.

(** A command that names [s] among its arguments. *)
Definition names (s : string) (ev : Event) : Prop :=
  exists c, fst ev = Exec c /\ In s (args c).

(** A command fed, on its standard input, a descriptor whose container
    image is [image]. *)
Definition describes (image : string) (ev : Event) : Prop :=
  exists c y, fst ev = Exec c /\ stdin c = Some y /\
              Contains y ("        - image: " ++ image ++ nl) = true.

(** What a run delivered for [imageRef]: a successful build that names it,
    a successful push of [target], which is [imageRef] itself when that is
    a registry reference, and a successful apply of a descriptor whose
    image it is. *)
Definition delivered (imageRef : string) (evs : Trace) : Prop :=
  Exists (fun ev => isBuilt ev = true /\ names imageRef ev) evs /\
  (exists target,
      Exists (fun ev => isPushed ev = true /\ names target ev) evs /\
      (Contains imageRef registryMarker = true -> target = imageRef)) /\
  Exists (fun ev => isApply ev = true /\ describes imageRef ev) evs.










(** The descriptor as the spec words it, line by line: a Knative Service
    named [name] in the namespace [ns], whose revision template carries, in
    its metadata, the annotation [autoscaling.knative.dev/minScale] with the
    value ["1"], and, in its spec, one container of the image [image] with
    the port [port]. *)
Definition serviceLines (name image ns : string) (port : Z) : list string :=
  [ "apiVersion: serving.knative.dev/v1";
    "kind: Service";
    "metadata:";
    "  name: " ++ name;
    "  namespace: " ++ ns;
    "spec:";
    "  template:";
    "    metadata:";
    "      annotations:";
    "        autoscaling.knative.dev/minScale: " ++ quoted "1";
    "    spec:";
    "      containers:";
    "        - image: " ++ image;
    "          ports:";
    "            - containerPort: " ++ fmt_d port;
    "              name: http1" ].

(** The lines of the container's environment: an empty line for an empty
    environment, otherwise [env:] and, for each variable, its name and its
    quoted value. *)
Definition envSection (env : list (string * string)) : list string :=
  match env with
  | [] => [""]
  | _ => "        env:" ::
         flat_map (fun kv => ["          - name: " ++ fst kv;
                              "            value: " ++ quoted (snd kv)]) env
  end.

(** The lines of the whole descriptor; the last one is empty. *)
Definition descriptorLines (name image ns : string) (port : Z)
    (env : list (string * string)) : list string :=
  (serviceLines name image ns port ++ envSection env ++ [""])%list.

(* ===================================================================== *)
(** * Properties                                                          *)
(* ===================================================================== *)

(** ** Go strings *)

Example Split_path : Split "/home/dev/shop" "/" = [""; "home"; "dev"; "shop"].
Proof. reflexivity. Qed.

Example Split_without_separator : Split "shop:latest" "/" = ["shop:latest"].
Proof. reflexivity. Qed.

Example Split_empty : Split "" "/" = [""].
Proof. reflexivity. Qed.

Example SplitN_first_equals : SplitN "URL=postgres://h/db?a=b" "=" 2
                              = ["URL"; "postgres://h/db?a=b"].
Proof. reflexivity. Qed.

Example SplitN_no_equals : SplitN "MODE" "=" 2 = ["MODE"].
Proof. reflexivity. Qed.

Example TrimSpace_account : TrimSpace ("123456789012" ++ nl) = "123456789012".
Proof. reflexivity. Qed.

(** An em space (U+2003, the bytes E2 80 83) and a no-break space (U+00A0,
    C2 A0) around the account are trimmed as well; a lone byte of such a
    rune is kept. *)
Example TrimSpace_unicode :
  TrimSpace (String (ascii_of_nat 226) (String (ascii_of_nat 128)
               (String (ascii_of_nat 131) "123456789012"))
             ++ String (ascii_of_nat 194) (String (ascii_of_nat 160) nl))
  = "123456789012" /\
  TrimSpace (String (ascii_of_nat 226) (String (ascii_of_nat 128)
               (String (ascii_of_nat 131) (String (ascii_of_nat 32) ""))))
  = "" /\
  TrimSpace (String (ascii_of_nat 128) "12 ") = String (ascii_of_nat 128) "12".
Proof. vm_compute. repeat split; reflexivity. Qed.

Example toEnvMap_pairs :
  toEnvMap ["MODE=prod"; "broken"; "MODE=dev"] = {[ "MODE" := "dev" ]}.
Proof. vm_compute. reflexivity. Qed.

Lemma genSplit_nonempty sep cuts skip s : genSplit sep cuts skip s <> [].
Proof.
  revert cuts skip. induction s as [|c s IH]; intros cuts skip; simpl.
  - discriminate.
  - destruct skip as [|k]; [|apply IH].
    destruct (_ && _); [discriminate|].
    destruct (genSplit sep cuts 0 s); discriminate.
Qed.

Lemma Split_length s sep : (1 <= length (Split s sep))%nat.
Proof.
  unfold Split. pose proof (genSplit_nonempty sep None 0 s) as H.
  destruct (genSplit sep None 0 s); [congruence | simpl; lia].
Qed.

Lemma Split_head s sep : exists p ps, Split s sep = p :: ps.
Proof.
  unfold Split. pose proof (genSplit_nonempty sep None 0 s) as H.
  destruct (genSplit sep None 0 s) as [|p ps]; [congruence | eauto].
Qed.

(** Without a slash there is nothing to cut. *)
Lemma Split_no_slash s : Contains s "/" = false -> Split s "/" = [s].
Proof.
  unfold Split. induction s as [|c s IH]; intros H; [reflexivity|].
  cbn [Contains] in H. apply orb_false_iff in H as [Hp Hc].
  cbn [genSplit]. cbn [andb]. rewrite Hp. rewrite (IH Hc). reflexivity.
Qed.

Lemma Contains_prefix s x : HasPrefix s x = true -> Contains s x = true.
Proof. intros H. destruct s; simpl in *; rewrite H; reflexivity. Qed.

Lemma Contains_app_r p s x : Contains s x = true -> Contains (p ++ s) x = true.
Proof.
  intros H. induction p as [|a p IH]; simpl; [exact H|].
  rewrite IH. apply orb_true_r.
Qed.

Lemma Contains_app_l p s x : Contains p x = true -> Contains (p ++ s) x = true.
Proof.
  revert x.
  assert (Hpre : forall x p, HasPrefix p x = true -> HasPrefix (p ++ s) x = true).
  { induction x as [|a x IH]; intros q Hq; [reflexivity|].
    destruct q as [|b q]; simpl in *; [discriminate|].
    destruct (Ascii.eqb a b); [auto | discriminate]. }
  induction p as [|a p IH]; intros x H.
  - simpl in H. rewrite orb_false_r in H. apply Contains_prefix.
    apply (Hpre x ""), H.
  - cbn [Contains] in H. apply orb_true_iff in H as [H|H].
    + apply Contains_prefix. apply Hpre, H.
    + change (String a p ++ s) with (String a (p ++ s)). cbn [Contains].
      rewrite (IH _ H). apply orb_true_r.
Qed.

Lemma append_empty_r (s : string) : s ++ "" = s.
Proof.
  induction s as [|a s IH]; [reflexivity|].
  change (String a s ++ "") with (String a (s ++ "")). rewrite IH. reflexivity.
Qed.

Lemma append_assoc_string (a b c : string) : (a ++ b) ++ c = a ++ b ++ c.
Proof.
  induction a as [|x a IH]; [reflexivity|].
  change ((String x a ++ b) ++ c) with (String x ((a ++ b) ++ c)).
  rewrite IH. reflexivity.
Qed.

Lemma Join_cons e e' rest sep :
  Join (e :: e' :: rest) sep = e ++ sep ++ Join (e' :: rest) sep.
Proof. reflexivity. Qed.

Lemma Join_cons_ne e l sep : l <> [] -> Join (e :: l) sep = e ++ sep ++ Join l sep.
Proof. destruct l; [congruence | reflexivity]. Qed.

(** Two lines per entry, joined, are the entries joined, each entry its
    two lines. *)
Lemma Join_two_lines {A} (a b : A -> string) (l : list A) :
  l <> [] ->
  Join (flat_map (fun x => [a x; b x]) l ++ [""]) nl
  = Join (map (fun x => a x ++ nl ++ b x) l) nl ++ nl.
Proof.
  induction l as [|x l IH]; intros H; [congruence|].
  destruct l as [|y l].
  - cbn [flat_map map app Join]. rewrite !append_assoc_string, append_empty_r.
    reflexivity.
  - change (flat_map (fun x => [a x; b x]) (x :: y :: l) ++ [""])%list
      with (a x :: b x :: (flat_map (fun x => [a x; b x]) (y :: l) ++ [""]))%list.
    change (map (fun x => a x ++ nl ++ b x) (x :: y :: l))
      with ((a x ++ nl ++ b x) :: map (fun x => a x ++ nl ++ b x) (y :: l)).
    assert (Hne : exists z zs,
               (flat_map (fun x => [a x; b x]) (y :: l) ++ [""])%list = z :: zs)
      by (cbn; eauto).
    destruct Hne as (z & zs & E).
    rewrite Join_cons. rewrite E, Join_cons, <- E.
    rewrite IH by discriminate.
    change (map (fun x => a x ++ nl ++ b x) (y :: l))
      with ((a y ++ nl ++ b y) :: map (fun x => a x ++ nl ++ b x) l).
    destruct (map (fun x => a x ++ nl ++ b x) l) as [|m ms] eqn:Em.
    + cbn [Join]. rewrite !append_assoc_string. reflexivity.
    + rewrite (Join_cons (a x ++ nl ++ b x)). rewrite !append_assoc_string.
      reflexivity.
Qed.

(** ** The logic of runs *)

Lemma runs_ret {A} (a : A) (Q : Trace -> Result A -> Prop) :
  Q [] (Ret a) -> runs (ret a) Q.
Proof.
  intros H w tr. exists [], (Ret a). rewrite app_nil_r. split; [reflexivity | exact H].
Qed.

Lemma runs_panic {A} msg (Q : Trace -> Result A -> Prop) :
  Q [] (Panic msg) -> runs (panic msg) Q.
Proof.
  intros H w tr. exists [], (Panic msg). rewrite app_nil_r.
  split; [reflexivity | exact H].
Qed.

Lemma runs_perform o (Q : Trace -> Result Resp -> Prop) :
  (forall r, Q [(o, r)] (Ret r)) -> runs (perform o) Q.
Proof.
  intros H w tr. exists [(o, respond w tr o)], (Ret (respond w tr o)).
  split; [reflexivity | apply H].
Qed.

Lemma runs_bind {A B} (m : Go A) (k : A -> Go B)
    (Q1 : Trace -> Result A -> Prop) (Q : Trace -> Result B -> Prop) :
  runs m Q1 ->
  (forall evs1 a, Q1 evs1 (Ret a) ->
                  runs (k a) (fun evs2 res => Q (evs1 ++ evs2)%list res)) ->
  (forall evs1 msg, Q1 evs1 (Panic msg) -> Q evs1 (Panic msg)) ->
  runs (bind m k) Q.
Proof.
  intros Hm Hk Hp w tr. unfold bind.
  destruct (Hm w tr) as (evs1 & res1 & E1 & H1). rewrite E1.
  destruct res1 as [a|msg].
  - destruct (Hk evs1 a H1 w (tr ++ evs1)%list) as (evs2 & res & E2 & H2).
    exists (evs1 ++ evs2)%list, res. rewrite E2, app_assoc. auto.
  - exists evs1, (Panic msg). auto.
Qed.

Lemma runs_weaken {A} (m : Go A) (Q Q' : Trace -> Result A -> Prop) :
  runs m Q -> (forall evs res, Q evs res -> Q' evs res) -> runs m Q'.
Proof.
  intros Hm HQ w tr. destruct (Hm w tr) as (evs & res & E & H). eauto.
Qed.

(** Performing an operation, then going on: the continuation is examined
    for every answer of the world. *)
Lemma runs_bind_perform {B} o (k : Resp -> Go B) (Q : Trace -> Result B -> Prop) :
  (forall r, runs (k r) (fun evs res => Q ((o, r) :: evs) res)) ->
  runs (bind (perform o) k) Q.
Proof.
  intros H. eapply runs_bind.
  - apply runs_perform with (Q := fun evs res => exists r, evs = [(o, r)] /\ res = Ret r).
    eauto.
  - intros evs1 a (r & -> & [= ->]). apply H.
  - intros evs1 msg (r & _ & [=]).
Qed.

Lemma runs_bind_ret {A B} (a : A) (k : A -> Go B) (Q : Trace -> Result B -> Prop) :
  runs (k a) Q -> runs (bind (ret a) k) Q.
Proof. intros H w tr. exact (H w tr). Qed.

Lemma runs_bind_assoc {A B C} (m : Go A) (k : A -> Go B) (h : B -> Go C)
    (Q : Trace -> Result C -> Prop) :
  runs (bind m (fun a => bind (k a) h)) Q -> runs (bind (bind m k) h) Q.
Proof.
  intros H w tr. destruct (H w tr) as (evs & res & E & HQ).
  exists evs, res. split; [|exact HQ]. rewrite <- E. unfold bind.
  destruct (m w tr) as [[a|msg] tr']; reflexivity.
Qed.

Lemma runs_bind_panic {A B} msg (k : A -> Go B) (Q : Trace -> Result B -> Prop) :
  Q [] (Panic msg) -> runs (bind (panic msg) k) Q.
Proof.
  intros H w tr. exists [], (Panic msg). rewrite app_nil_r.
  split; [reflexivity | exact H].
Qed.

(** One step of symbolic execution of a run. *)
Ltac run_step :=
  lazymatch goal with
  | |- runs (bind (perform (Print _)) _) _ =>
      apply runs_bind_perform; intros ?; cbn beta iota
  | |- runs (bind (perform _) _) _ =>
      apply runs_bind_perform; intros [[?|] ? ? ?]; cbn beta iota
  | |- runs (bind (ret _) _) _ => apply runs_bind_ret; cbn beta iota
  | |- runs (bind (panic _) _) _ => apply runs_bind_panic; cbn beta iota
  | |- runs (bind (bind _ _) _) _ => apply runs_bind_assoc; cbn beta iota
  | |- runs (ret _) _ => apply runs_ret; cbn beta iota
  | |- runs (panic _) _ => apply runs_panic; cbn beta iota
  | |- runs (perform _) _ => apply runs_perform; intros [[?|] ? ? ?]; cbn beta iota
  | |- runs (bind (if ?b then _ else _) _) _ => destruct b eqn:?
  | |- runs (if ?b then _ else _) _ => destruct b eqn:?
  end.

Lemma steps_app (a b : Trace) : steps (a ++ b)%list = (steps a ++ steps b)%list.
Proof. unfold steps. apply omap_app. Qed.

Ltac run_simpl :=
  cbn [fst snd r_err r_out r_num r_dir isEmpty negb andb orb].

Ltac run_steps := repeat (run_step; run_simpl).

(** Closes [Forall quiet] on an explicit list of events. *)
Ltac quiet_events :=
  repeat first
    [ exact (List.Forall_nil _)
    | apply List.Forall_cons;
        [ split; cbn; rewrite ?andb_false_r; reflexivity | ] ].

(** ** Push stage *)

Lemma awsRegion_runs :
  runs awsRegion (fun evs res => steps evs = [] /\ Forall quiet evs /\
                                 exists region, res = Ret region).
Proof.
  unfold awsRegion, os_Getenv.
  run_steps; (split; [reflexivity | split; [quiet_events | eauto]]).
Qed.

Lemma pushAuthenticated_runs imageRef region reg repoName :
  runs (pushAuthenticated imageRef region reg repoName)
       (fun evs res => AuthRun (steps evs) res /\ Forall quiet evs).
Proof.
  unfold pushAuthenticated, Printf, Output, Run.
  run_steps; (split; [cbn; constructor | quiet_events]).
Qed.

Lemma Split_slash s : Contains s "/" = true -> (2 <= length (Split s "/"))%nat.
Proof.
  unfold Split. induction s as [|c s IH]; intros H; [discriminate|].
  cbn [Contains] in H. cbn [genSplit andb].
  destruct (HasPrefix (String c s) "/").
  - pose proof (genSplit_nonempty "/" (option_map Nat.pred None)
                  (String.length "/" - 1) s) as Hn.
    destruct (genSplit _ _ _ s); [congruence | simpl; lia].
  - specialize (IH H). destruct (genSplit "/" None 0 s); simpl in *; lia.
Qed.

Lemma index_head p ps : index (p :: ps) 0 = ret p.
Proof. reflexivity. Qed.

Lemma pushResolved_runs imageRef region :
  runs (pushResolved imageRef region)
       (fun evs res => ResolvedRun imageRef (steps evs) res /\ Forall quiet evs).
Proof.
  unfold pushResolved, ResolvedRun.
  destruct (Split_head imageRef "/") as (reg & ps & E). rewrite E.
  change (length (reg :: ps) <? 1)%nat with false. cbn iota.
  rewrite index_head. run_step.
  destruct ps as [|r ps]; unfold index at 1; cbn [lookup list_lookup].
  - run_step. split; [right; auto | constructor].
  - run_step. destruct (Split_head r ":") as (repoName & qs & E'). rewrite E'.
    rewrite index_head. run_step.
    eapply runs_weaken; [apply pushAuthenticated_runs|].
    intros evs res [H1 H2]. split; [left; exact H1 | exact H2].
Qed.

Lemma steps_cons ev evs :
  steps (ev :: evs) =
  match stepOfEvent ev with Some s => s :: steps evs | None => steps evs end.
Proof. reflexivity. Qed.

Lemma dockerPushWithECRLogin_runs imageRef :
  runs (dockerPushWithECRLogin imageRef)
       (fun evs res => PushRun (steps evs) res /\ Forall quiet evs).
Proof.
  unfold dockerPushWithECRLogin.
  eapply runs_bind; [apply awsRegion_runs | | intros ? ? (_ & _ & ? & [=])].
  intros evs0 region (Hs & Hq & _). cbn beta.
  eapply runs_weaken with
    (Q := fun evs res => PushRun (steps evs) res /\ Forall quiet evs).
  2:{ intros evs res [H1 H2]. rewrite steps_app, Hs.
      split; [exact H1 | apply Forall_app; auto]. }
  unfold Output, Printf, Run.
  run_steps; try (split; [cbn; constructor | quiet_events]).
  - (* a local image name: tag, then go on with the registry reference *)
    destruct (Split_head imageRef ":") as (projectName & qs & E). rewrite E.
    rewrite index_head. run_steps; try (split; [cbn; constructor | quiet_events]).
    eapply runs_weaken; [apply pushResolved_runs|].
    intros evs res [H1 H2]. rewrite !steps_cons. cbn.
    split; [|quiet_events; exact H2].
    destruct H1 as [H1 | (Hlen & _ & _)].
    + apply authenticated_tagged, H1.
    + exfalso.
      assert (Hc : Contains (TrimSpace r_out0 ++ ".dkr.ecr." ++ region ++
                             ".amazonaws.com/" ++ projectName ++ ":latest") "/"
                   = true)
        by (do 3 apply Contains_app_r; apply Contains_app_l; reflexivity).
      apply Split_slash in Hc. lia.
  - (* a registry reference already *)
    eapply runs_weaken; [apply pushResolved_runs|].
    intros evs res [H1 H2]. rewrite !steps_cons. cbn.
    split; [|quiet_events; exact H2].
    destruct H1 as [H1 | (_ & -> & ->)].
    + apply authenticated_remote, H1.
    + apply no_repository.
Qed.

Ltac lookup_cases :=
  let i := fresh "i" in
  intros i;
  repeat (destruct i as [|i]; cbn [lookup list_lookup];
          [try (intros; simplify_eq; eauto; fail)|]);
  try (cbn [lookup list_lookup]; intros; simplify_eq; eauto; fail).

Ltac member_cases :=
  intros; repeat (rewrite ?elem_of_cons, ?elem_of_nil in * );
  intuition (simplify_eq; eauto).

Lemma PushRun_discipline ss res :
  PushRun ss res ->
  StronglySorted lt (map (fun s => rank (fst s)) ss) /\
  List.filter mandatory (map fst ss)
    `prefix_of` [Identity; Credential; Login; CheckRepo; Push] /\
  (forall i s ok s', ss !! i = Some (s, ok) -> ss !! S i = Some s' ->
     ok = true \/ (s = CheckRepo /\ fst s' = CreateRepo)) /\
  (forall i, ss !! i = Some (CheckRepo, false) <->
             exists ok, ss !! S i = Some (CreateRepo, ok)) /\
  (forall s, (s, false) ∈ ss -> s <> CheckRepo -> exists e, res = Ret (Some e)) /\
  (forall ok, (Push, ok) ∈ ss ->
     (Identity, true) ∈ ss /\ (Credential, true) ∈ ss /\ (Login, true) ∈ ss /\
     ((CheckRepo, true) ∈ ss \/ (CreateRepo, true) ∈ ss)) /\
  (res = Ret None -> last ss = Some (Push, true)).
Proof.
  intros H.
  assert (Hshape : (exists ss', AuthRun ss' res /\
                      (ss = (Identity, true) :: ss' \/
                       ss = (Identity, true) :: (Tag, true) :: ss')) \/
                   (ss = [(Identity, false)] /\ exists e, res = Ret (Some e)) \/
                   (ss = [(Identity, true)] /\ exists e, res = Ret (Some e)) \/
                   (ss = [(Identity, true); (Tag, false)] /\
                      exists e, res = Ret (Some e)) \/
                   (ss = [(Identity, true)] /\ exists msg, res = Panic msg))
    by (inversion H; subst; eauto 10).
  clear H.
  destruct Hshape as [(ss' & Ha & Hs) | Hs].
  - inversion Ha; subst; destruct Hs as [-> | ->]; cbn;
      (split; [repeat constructor|]);
      (split; [eexists; reflexivity|]);
      (split; [lookup_cases|]);
      (split; [intros i; split; [revert i; lookup_cases
                                | intros [ok Hok]; revert i ok Hok; lookup_cases]|]);
      (split; [member_cases|]);
      (split; [member_cases|]);
      first [discriminate | intros; reflexivity | idtac].
  - destruct Hs as [(-> & e & ->) | [(-> & e & ->) | [(-> & e & ->) | (-> & m & ->)]]];
      cbn;
      (split; [repeat constructor|]);
      (split; [eexists; reflexivity|]);
      (split; [lookup_cases|]);
      (split; [intros i; split; [revert i; lookup_cases
                                | intros [ok Hok]; revert i ok Hok; lookup_cases]|]);
      (split; [member_cases|]);
      (split; [member_cases|]);
      first [discriminate | intros; reflexivity | idtac].
Qed.

(** ** Build stage *)

Section BuildProperties.

Variable filepath_Join : list string -> string.
Variable filepath_Dir : string -> string.

Lemma createDockerfile_runs appPath :
  runs (createDockerfile filepath_Join appPath)
       (fun evs res => (exists d, res = Ret d /\ Selected filepath_Join appPath evs d) /\
                       Forall quiet evs).
Proof.
  unfold createDockerfile, hasMarker.
  run_steps;
    (split; [eexists; split; [reflexivity|];
             constructor; cbn; (reflexivity || discriminate)
            | quiet_events]).
Qed.

Lemma buildWithDocker_runs appPath imageRef envs :
  runs (buildWithDocker filepath_Join appPath imageRef envs)
       (fun evs res => DockerRun filepath_Join appPath imageRef evs res /\ Forall quiet evs).
Proof.
  unfold buildWithDocker.
  eapply runs_bind; [apply createDockerfile_runs | | intros ? ? [(? & [=] & _) _]].
  intros probes d [(d' & [= <-] & Hsel) Hq]. unfold Run.
  run_steps; (split; [apply (docker_run _ _ _ _ _ (mkResp _ _ _ _) Hsel)
                     | apply Forall_app; split; [exact Hq | quiet_events]]).
Qed.

Lemma findBundledPack_runs :
  runs (findBundledPack filepath_Join filepath_Dir)
       (fun evs res => execs evs = [] /\ Forall quiet evs /\
                       exists p, res = Ret p).
Proof.
  unfold findBundledPack.
  run_steps; (split; [reflexivity | split; [quiet_events | eauto]]).
Qed.

Lemma findPackCLI_runs :
  runs (findPackCLI filepath_Join filepath_Dir)
       (fun evs res => execs evs = [] /\ Forall quiet evs /\
                       exists p, res = Ret p /\ (p = "" -> NoPack evs)).
Proof.
  unfold findPackCLI.
  eapply runs_bind; [apply findBundledPack_runs | | intros ? ? (_ & _ & ? & [=])].
  intros evs1 bundled (Hx & Hq & _).
  assert (Hexecs : forall l, execs (evs1 ++ [(LookPath "pack", l)])%list = [])
    by (intros l; unfold execs in *; rewrite omap_app, Hx; reflexivity).
  destruct bundled as [|c b]; cbn beta iota; run_simpl.
  - run_steps; rewrite ?app_nil_r;
      (split; [apply Hexecs | split; [apply Forall_app; split;
                                        [exact Hq | quiet_events]|]]).
    + exists "". split; [reflexivity|]. intros _. eexists _, _.
      split; [reflexivity|]. left. discriminate.
    + eexists. split; [reflexivity|]. intros ->. eexists _, _.
      split; [reflexivity|]. right. reflexivity.
  - run_steps. rewrite app_nil_r. split; [exact Hx | split; [exact Hq|]].
    eexists. split; [reflexivity | discriminate].
Qed.

Lemma notices_one text r : notices [(Print text, r)].
Proof. repeat constructor. cbn. eauto. Qed.

Lemma notices_two t1 r1 t2 r2 : notices [(Print t1, r1); (Print t2, r2)].
Proof. repeat constructor; cbn; eauto. Qed.

Lemma buildApplication_runs appPath imageRef envs :
  runs (buildApplication filepath_Join filepath_Dir appPath imageRef envs)
       (fun evs res => BuildRun filepath_Join appPath imageRef envs evs res /\ Forall quiet evs).
Proof.
  unfold buildApplication.
  eapply runs_bind; [apply findPackCLI_runs | | intros ? ? (_ & _ & ? & [=] & _)].
  intros search packPath (Hx & Hq & p & [= <-] & Hno).
  destruct packPath as [|c packPath]; cbn beta iota; run_simpl; unfold Printf.
  - run_steps.
    eapply runs_weaken; [apply buildWithDocker_runs|].
    intros fb res [Hd Hqf]. split.
    + apply (fallback_without_pack _ _ _ _ search [_] fb res Hx (Hno eq_refl)
               (notices_one _ _) Hd).
    + apply Forall_app; split; [exact Hq | quiet_events; exact Hqf].
  - unfold Run. run_steps.
    + eapply runs_weaken; [apply buildWithDocker_runs|].
      intros fb res [Hd Hqf]. split.
      * refine (fallback_after_pack _ _ _ _ search [_] (String c packPath)
                  (mkResp _ _ _ _) [_; _] fb res Hx _ (notices_one _ _) _
                  (notices_two _ _ _ _) Hd); [discriminate | cbn; discriminate].
      * apply Forall_app; split; [exact Hq | quiet_events; exact Hqf].
    + split.
      * refine (built_by_pack _ _ _ _ search [_] (String c packPath)
                  (mkResp _ _ _ _) Hx _ (notices_one _ _) _);
          [discriminate | reflexivity].
      * apply Forall_app; split; [exact Hq | quiet_events].
Qed.

End BuildProperties.

(** ** Deploy stage and the steps before the attachments *)

(** Closes [Forall quiet] on events given by hypotheses, appends and
    explicit events. *)
Ltac quiet_all :=
  repeat first
    [ exact (List.Forall_nil _)
    | assumption
    | apply Forall_app; split
    | apply List.Forall_cons;
        [ first [ assumption
                | split; cbn; rewrite ?andb_false_r; reflexivity ] | ] ].

(** The descriptor goes to one [kubectl apply -f -]; the outcome of the
    command is the outcome of the step. *)
Lemma knServiceApply_runs name image ns cpu mem env ctx port :
  runs (knServiceApply name image ns cpu mem env ctx port)
       (fun evs res =>
          exists c r, evs = [(Exec c, r)] /\ prog c = "kubectl" /\
                      ["apply"; "-f"; "-"] `suffix_of` args c /\
                      res = Ret (r_err r)).
Proof.
  intros w tr. unfold knServiceApply, rangeMap, Run, bind, perform, ret.
  eexists [_], _. split; [reflexivity|]. eexists _, _.
  split; [reflexivity|]. split; [reflexivity|]. split; [|reflexivity].
  unfold kubectlArgs. cbn [args]. destruct ctx as [|a ctx]; cbn.
  - exists []. reflexivity.
  - exists ["--context"; String a ctx]. reflexivity.
Qed.

Lemma quietly_ret {A} (a : A) : quietly (ret a).
Proof. apply runs_ret. constructor. Qed.

Lemma quietly_panic {A} msg : quietly (@panic A msg).
Proof. apply runs_panic. constructor. Qed.

Lemma quietly_perform o :
  isReport o = false -> isClientOp o = false -> quietly (perform o).
Proof. intros H1 H2. apply runs_perform. intros r. repeat constructor; assumption. Qed.

Lemma quietly_bind {A B} (m : Go A) (k : A -> Go B) :
  quietly m -> (forall a, quietly (k a)) -> quietly (bind m k).
Proof.
  intros Hm Hk. eapply runs_bind; [exact Hm | | auto].
  intros evs1 a H1. eapply runs_weaken; [apply Hk|].
  intros evs2 res H2. apply Forall_app; auto.
Qed.

Lemma runs_quietly {A} (m : Go A) (Q : Trace -> Result A -> Prop) :
  runs m (fun evs res => Q evs res /\ Forall quiet evs) -> quietly m.
Proof. intros H. eapply runs_weaken; [exact H|]. intros ? ? [_ ?]. assumption. Qed.

(** Structural proof that a computation is quiet. *)
Ltac quietly_tac :=
  repeat first
    [ apply quietly_ret
    | apply quietly_panic
    | apply quietly_perform; cbn; rewrite ?andb_false_r; reflexivity
    | apply quietly_bind; [|intros]
    | match goal with
      | |- quietly (match ?x with _ => _ end) => destruct x
      | |- quietly (let _ := _ in _) => cbv zeta
      end ].

Lemma getProjectName_quietly : quietly getProjectName.
Proof. unfold getProjectName, index. quietly_tac. Qed.

Lemma awsRegion_quietly : quietly awsRegion.
Proof. unfold awsRegion, os_Getenv. quietly_tac. Qed.

Lemma generateImageRef_quietly projectName : quietly (generateImageRef projectName).
Proof.
  unfold generateImageRef, index, Output, os_Getenv, Printf.
  apply quietly_bind; [apply awsRegion_quietly | intros region].
  quietly_tac.
Qed.

Section DeployerProperties.

Variable json_Marshal : deployReport -> string.
Variable filepath_Join : list string -> string.
Variable filepath_Dir : string -> string.
Variable RecommendedHomeFile : string.

(** Steps 1 to 3.5 perform neither a report nor a client operation, and
    hand over to the attachments only after a successful apply. *)
Lemma deployService_runs f :
  runs (deployService filepath_Join filepath_Dir f)
       (fun evs res => Forall quiet evs /\
                       forall x, res = Ret (inr x) -> applied evs).
Proof.
  unfold deployService.
  eapply runs_bind; [apply getProjectName_quietly | | intros; split; [auto | discriminate]].
  intros evs1 pn H1. cbn beta.
  destruct (snd pn); [run_steps; rewrite app_nil_r; split; [auto | discriminate]|].
  eapply runs_bind; [apply generateImageRef_quietly | |
                     intros; split; [apply Forall_app; auto | discriminate]].
  intros evs2 ir H2. cbn beta.
  destruct (snd ir);
    [run_steps; rewrite app_nil_r; split; [quiet_all | discriminate]|].
  unfold Printf at 1. run_steps.
  eapply runs_bind; [apply buildApplication_runs | |
                     intros ? ? [_ ?]; split; [quiet_all | discriminate]].
  intros evs3 b [_ H3]. cbn beta.
  destruct b; [run_steps; rewrite app_nil_r; split; [quiet_all | discriminate]|].
  unfold Printf at 1. run_steps.
  eapply runs_bind; [apply dockerPushWithECRLogin_runs | |
                     intros ? ? [_ ?]; split; [quiet_all | discriminate]].
  intros evs4 p [_ H4]. cbn beta.
  destruct p; [run_steps; rewrite app_nil_r; split; [quiet_all | discriminate]|].
  unfold Printf at 1. run_steps.
  eapply runs_bind; [apply knServiceApply_runs | | intros ? ? (? & ? & _ & _ & _ & [=])].
  intros evs5 d (kc & kr & -> & Hprog & Hargs & [= ->]). cbn beta.
  assert (Hq5 : quiet (Exec kc, kr)).
  { split; [|reflexivity]. cbn. rewrite Hprog. reflexivity. }
  destruct (r_err kr) eqn:Er;
    [run_steps; split; [quiet_all | discriminate]|].
  assert (Happlied : isApply (Exec kc, kr) = true).
  { unfold isApply, succeeded. cbn [fst snd]. rewrite Hprog, Er.
    cbn. apply bool_decide_eq_true_2, Hargs. }
  unfold Printf. run_steps.
  all: split; [quiet_all | intros ? _].
  all: unfold applied; cbn [app];
    repeat first [ apply List.Exists_cons_hd; assumption
                 | apply List.Exists_cons_tl
                 | apply Exists_app; right ].
Qed.

(** *** Attachments *)

Lemma step_failed_last own evs ev e :
  last evs = Some ev -> Forall nofail (removelast evs) ->
  Forall unreported evs -> attachFailure ev = Some e ->
  StepRun own evs (Ret (Some e)).
Proof.
  intros Hl Hn Hu He.
  assert (E : evs = (removelast evs ++ [ev])%list).
  { destruct evs as [|x evs]; [discriminate|].
    rewrite (app_removelast_last ev) at 1 by discriminate.
    f_equal. f_equal. rewrite last_Some in Hl. destruct Hl as [l' ->].
    apply List.last_last. }
  rewrite E in Hu |- *. apply step_failed; assumption.
Qed.

Ltac step_events :=
  repeat first
    [ exact (List.Forall_nil _)
    | assumption
    | apply Forall_app; split
    | apply List.Forall_cons; [reflexivity|] ].

(** Closes a goal [StepRun own evs res] on explicit events. *)
Ltac step_leaf :=
  first
    [ apply step_done; step_events
    | eapply step_failed_last;
        [ reflexivity | cbn [removelast]; step_events | step_events | reflexivity ] ].

Lemma attachDatabase_runs name ns user password host prt db ctx :
  runs (attachDatabase RecommendedHomeFile name ns user password host
                       prt db ctx) (StepRun none).
Proof.
  unfold attachDatabase, getClient, upsertSecret, os_Getenv.
  run_steps; step_leaf.
Qed.

Lemma attachRedis_runs name ns host prt password ctx :
  runs (attachRedis RecommendedHomeFile name ns host prt password ctx)
       (StepRun none).
Proof.
  unfold attachRedis, getClient, upsertSecret, os_Getenv.
  run_steps; step_leaf.
Qed.

Lemma secretData_malformed pairs data e :
  secretData pairs data = inl e -> malformed pairs e.
Proof.
  revert data. induction pairs as [|p pairs IH]; intros data H; [discriminate|].
  cbn [secretData] in H.
  destruct (SplitN p "=" 2) as [|k [|v [|x l]]];
    try (injection H as <-; exists p; split; [left|]; reflexivity).
  destruct (IH _ H) as (q & Hq & ->). exists q. split; [right|]; auto.
Qed.

Lemma createSecrets_runs name ns pairs ctx :
  runs (createSecrets RecommendedHomeFile name ns pairs ctx)
       (StepRun (malformed pairs)).
Proof.
  unfold createSecrets, getClient, upsertSecret, os_Getenv.
  run_steps; try step_leaf.
  all: destruct (secretData pairs ∅) eqn:E; run_steps;
    first [ step_leaf
          | apply step_rejected;
              [eapply secretData_malformed, E | step_events | step_events] ].
Qed.

(** A step that is run only when asked for, after a line of notice. *)
Lemma optional_step_runs own (asked : bool) text (m : Go error) :
  runs m (StepRun own) ->
  runs (if asked then Printf text ;;; m else ret None) (StepRun own).
Proof.
  intros Hm. destruct asked; [|run_steps; step_leaf].
  unfold Printf. run_steps.
  eapply runs_weaken; [exact Hm|]. intros evs res H.
  inversion H; subst.
  - apply step_done; step_events.
  - apply (step_failed own ((Print text, r) :: pre) ev e);
      [step_events | apply List.Forall_cons; [reflexivity | assumption]
      | assumption].
  - apply step_rejected; step_events.
Qed.

Lemma AttachRun_after f evs1 evs2 res :
  Forall nofail evs1 -> Forall unreported evs1 ->
  AttachRun f evs2 res -> AttachRun f (evs1 ++ evs2)%list res.
Proof.
  intros Hn Hu H. inversion H; subst.
  - rewrite app_assoc. apply attach_failed; try assumption.
    + apply Forall_app; auto.
    + rewrite <- app_assoc. apply Forall_app; auto.
  - apply attach_rejected; try assumption; apply Forall_app; auto.
  - apply attach_done; [apply Forall_app; auto|].
    intros Hs. apply Forall_app; auto.
Qed.

(** What a failed step makes of the run: the error of the step under the
    label of the step. *)
Lemma StepRun_failed f own evs e label :
  StepRun own evs (Ret (Some e)) -> In label labels ->
  (forall e', own e' -> label = "secrets creation failed: " /\
                        malformed (secrets f) e') ->
  AttachRun f evs (Ret (Some (label ++ e))).
Proof.
  intros H Hl Hown. inversion H; subst.
  - apply attach_failed; assumption.
  - destruct (Hown _ H1) as [-> Hm]. apply attach_rejected; assumption.
Qed.

Lemma attachAndReport_runs f projectName imageRef ns :
  runs (attachAndReport json_Marshal RecommendedHomeFile f projectName imageRef ns)
       (AttachRun f).
Proof.
  unfold attachAndReport.
  eapply runs_bind;
    [apply optional_step_runs, attachDatabase_runs | | intros ? ? HP; inversion HP].
  intros evs1 [e|] S1; cbn beta iota.
  { run_steps. rewrite app_nil_r.
    eapply StepRun_failed; [exact S1 | cbn; auto | intros ? []]. }
  inversion S1; subst.
  eapply runs_weaken;
    [|intros ? ? HA; apply AttachRun_after; [| |exact HA]; assumption].
  eapply runs_bind;
    [apply optional_step_runs, attachRedis_runs | | intros ? ? HP; inversion HP].
  intros evs2 [e|] S2; cbn beta iota.
  { run_steps. rewrite app_nil_r.
    eapply StepRun_failed; [exact S2 | cbn; auto | intros ? []]. }
  inversion S2; subst.
  eapply runs_weaken;
    [|intros ? ? HA; apply AttachRun_after; [| |exact HA]; assumption].
  eapply runs_bind;
    [apply optional_step_runs, createSecrets_runs | | intros ? ? HP; inversion HP].
  intros evs3 [e|] S3; cbn beta iota.
  { run_steps. rewrite app_nil_r.
    eapply StepRun_failed; [exact S3 | cbn; auto | intros ? ?; split; auto]. }
  inversion S3; subst.
  eapply runs_weaken;
    [|intros ? ? HA; apply AttachRun_after; [| |exact HA]; assumption].
  unfold report, Run, Printf.
  destruct (serverURL f) as [|c url] eqn:Es; run_simpl; run_steps;
    (apply attach_done; [step_events | intros; first [congruence | step_events]]).
Qed.

(** *** The whole run *)

Lemma deployRun_runs f :
  runs (deployRun json_Marshal filepath_Join filepath_Dir RecommendedHomeFile f)
       (DeployRun f).
Proof.
  unfold deployRun.
  eapply runs_bind; [apply deployService_runs | |
                     intros ? ? [? _]; apply stopped_early; [auto | discriminate]].
  intros pre [e | [[projectName imageRef] ns]] [Hq Ha]; cbn beta iota.
  - run_steps. rewrite app_nil_r. apply stopped_early; [auto | discriminate].
  - eapply runs_weaken; [apply attachAndReport_runs|].
    intros evs res H. apply attached; eauto.
Qed.


Lemma quiet_unreported ev : quiet ev -> unreported ev.
Proof. intros [H _]. exact H. Qed.

End DeployerProperties.

(** ** Worlds that differ in the answer to the report only *)

Lemma stable_ret {A} (a : A) : stable (ret a).
Proof. intros w1 w2 tr _. reflexivity. Qed.

Lemma stable_panic {A} msg : stable (@panic A msg).
Proof. intros w1 w2 tr _. reflexivity. Qed.

Lemma stable_perform o : isReport o = false -> stable (perform o).
Proof. intros Ho w1 w2 tr [_ H]. unfold perform. rewrite (H tr o Ho). reflexivity. Qed.

Lemma stable_rangeMap m : stable (rangeMap m).
Proof. intros w1 w2 tr [H _]. unfold rangeMap. rewrite H. reflexivity. Qed.

Lemma stable_bind {A B} (m : Go A) (k : A -> Go B) :
  stable m -> (forall a, stable (k a)) -> stable (bind m k).
Proof.
  intros Hm Hk w1 w2 tr H. unfold bind. rewrite (Hm w1 w2 tr H).
  destruct (m w2 tr) as [[a|msg] tr']; [apply Hk, H | reflexivity].
Qed.

Lemma sameResult_stable {A} (m : Go A) : stable m -> sameResult m.
Proof. intros Hm w1 w2 tr H. rewrite (Hm w1 w2 tr H). reflexivity. Qed.

Lemma sameResult_bind {A B} (m : Go A) (k : A -> Go B) :
  stable m -> (forall a, sameResult (k a)) -> sameResult (bind m k).
Proof.
  intros Hm Hk w1 w2 tr H. unfold bind. rewrite (Hm w1 w2 tr H).
  destruct (m w2 tr) as [[a|msg] tr']; [apply Hk, H | reflexivity].
Qed.

Create HintDb stable discriminated.

(** Structural proof that a computation is stable; the lemmas on the
    functions already treated are taken from the hint database. *)
Ltac stable_tac :=
  repeat first
    [ solve [auto 1 with stable nocore]
    | apply stable_ret
    | apply stable_panic
    | apply stable_rangeMap
    | apply stable_perform; cbn; rewrite ?andb_false_r; reflexivity
    | apply stable_bind; [|intros]
    | match goal with
      | |- stable (match ?x with _ => _ end) => destruct x
      | |- stable (let _ := _ in _) => cbv zeta
      end ].

Section Stability.

Variable json_Marshal : deployReport -> string.
Variable filepath_Join : list string -> string.
Variable filepath_Dir : string -> string.
Variable RecommendedHomeFile : string.

Lemma buildApplication_stable appPath imageRef envs :
  stable (buildApplication filepath_Join filepath_Dir appPath imageRef envs).
Proof.
  unfold buildApplication, findPackCLI, findBundledPack, buildWithDocker,
    createDockerfile, hasMarker, Printf, Run.
  stable_tac.
Qed.

Lemma dockerPushWithECRLogin_stable imageRef :
  stable (dockerPushWithECRLogin imageRef).
Proof.
  unfold dockerPushWithECRLogin, pushResolved, pushAuthenticated, awsRegion,
    index, os_Getenv, Output, Printf, Run.
  stable_tac.
Qed.

Hint Resolve buildApplication_stable dockerPushWithECRLogin_stable : stable.

Lemma deployService_stable f :
  stable (deployService filepath_Join filepath_Dir f).
Proof.
  unfold deployService, getProjectName, generateImageRef, knServiceApply,
    awsRegion, index, os_Getenv, Output, Printf, Run.
  stable_tac.
Qed.

Lemma attachDatabase_stable name ns user password host prt db ctx :
  stable (attachDatabase RecommendedHomeFile name ns user password host prt db ctx).
Proof. unfold attachDatabase, getClient, upsertSecret, os_Getenv. stable_tac. Qed.

Lemma attachRedis_stable name ns host prt password ctx :
  stable (attachRedis RecommendedHomeFile name ns host prt password ctx).
Proof. unfold attachRedis, getClient, upsertSecret, os_Getenv. stable_tac. Qed.

Lemma createSecrets_stable name ns pairs ctx :
  stable (createSecrets RecommendedHomeFile name ns pairs ctx).
Proof. unfold createSecrets, getClient, upsertSecret, os_Getenv. stable_tac. Qed.

Hint Resolve attachDatabase_stable attachRedis_stable createSecrets_stable
  : stable.

(** From the report on, a run ends in success whatever the world answers. *)
Lemma report_tail_succeeds (asked : bool) server
    (payload : Resp -> Resp -> deployReport) text w tr :
  fst (((if asked then
           t1 <- perform TimeNow ;;
           t2 <- perform TimeNow ;;
           report json_Marshal server (payload t1 t2) ;;;
           ret tt
         else ret tt) ;;;
        Printf text ;;;
        ret None) w tr) = Ret (@None string).
Proof. destruct asked; reflexivity. Qed.

Lemma attachAndReport_sameResult f projectName imageRef ns :
  sameResult (attachAndReport json_Marshal RecommendedHomeFile f projectName
                              imageRef ns).
Proof.
  unfold attachAndReport.
  apply sameResult_bind.
  { destruct (negb _); unfold Printf; stable_tac. }
  intros [e|]; [apply sameResult_stable, stable_ret|].
  apply sameResult_bind.
  { destruct (negb _); unfold Printf; stable_tac. }
  intros [e|]; [apply sameResult_stable, stable_ret|].
  apply sameResult_bind.
  { destruct (_ <? _)%nat; unfold Printf; stable_tac. }
  intros [e|]; [apply sameResult_stable, stable_ret|].
  intros w1 w2 tr _.
  pose (payload := fun t1 t2 : Resp =>
          {| ID := projectName ++ ":" ++ fmt_d (r_num t1);
             Project := projectName; Namespace := ns; Image := imageRef;
             Status := "deployed";
             Description := "Application deployed with auto-build and push";
             CreatedAt := r_num t2 |}).
  exact (eq_trans (report_tail_succeeds _ (serverURL f) payload _ w1 tr)
                  (eq_sym (report_tail_succeeds _ (serverURL f) payload _ w2 tr))).
Qed.

Lemma deployRun_sameResult f :
  sameResult (deployRun json_Marshal filepath_Join filepath_Dir
                        RecommendedHomeFile f).
Proof.
  unfold deployRun. apply sameResult_bind; [apply deployService_stable|].
  intros [e | [[projectName imageRef] ns]];
    [apply sameResult_stable, stable_ret | apply attachAndReport_sameResult].
Qed.

End Stability.

(** ** The agent *)

Module AgentProperties.
Import Agent.




Lemma head_insertFix x l :
  head (insertFix x l) =
  match l with
  | [] => Some x
  | y :: _ => if Qle_bool (Confidence y) (Confidence x) then Some x else Some y
  end.
Proof. destruct l as [|y l]; cbn; [|destruct (Qle_bool _ _)]; reflexivity. Qed.

(** The top of the ranking is the first candidate of highest confidence. *)
Lemma head_rankFixes x l :
  exists s i,
    head (rankFixes (x :: l)) = Some s /\ (x :: l) !! i = Some s /\
    (forall t, In t (x :: l) -> Qle (Confidence t) (Confidence s)) /\
    (forall j t, (j < i)%nat -> (x :: l) !! j = Some t ->
                 Qlt (Confidence t) (Confidence s)).
Proof.
  revert x. induction l as [|y l IH]; intros x.
  - exists x, 0%nat. cbn. repeat split; try reflexivity.
    + intros t [<- | []]. apply Qle_refl.
    + intros j t Hj. lia.
  - destruct (IH y) as (s' & i' & Hh & Hi & Hmax & Hfirst).
    cbn [rankFixes] in *. rewrite head_insertFix.
    destruct (insertFix y (rankFixes l)) as [|z rest] eqn:E; [discriminate|].
    cbn [head] in Hh. injection Hh as ->.
    destruct (Qle_bool (Confidence s') (Confidence x)) eqn:Ec.
    + apply Qle_bool_iff in Ec. exists x, 0%nat.
      repeat split; try reflexivity.
      * intros t [<- | Ht]; [apply Qle_refl|].
        eapply Qle_trans; [apply Hmax, Ht | exact Ec].
      * intros j t Hj. lia.
    + assert (Hlt : Qlt (Confidence x) (Confidence s')).
      { apply Qnot_le_lt. intros Hle. apply Qle_bool_iff in Hle. congruence. }
      exists s', (S i'). repeat split; try assumption; try reflexivity.
      * intros t [<- | Ht]; [apply Qlt_le_weak, Hlt | apply Hmax, Ht].
      * intros [|j] t Hj Ht.
        -- cbn in Ht. injection Ht as <-. exact Hlt.
        -- apply (Hfirst j t); [lia | exact Ht].
Qed.

(** *** Lowercase normalisation *)











Example examplePatterns_twoCategories : twoCategories examplePatterns.
Proof.
  exists (mkPattern "ecr_auth_failed" ["authentication failed"]),
         (mkPattern "permission_denied" ["permission denied"]),
         "authentication failed", "permission denied",
         "Authentication failed: unauthorized", "permission denied: access denied".
  cbn. repeat split; auto; discriminate.
Qed.


End AgentProperties.

(** ** The pipeline on the development machine *)

(** No pack tool and a Node project: the fallback build with the Node
    template; the repository is created before the push; the descriptor is
    applied; the database secret is created; the report is posted; the run
    succeeds.  The docker commands read the Dockerfile (build) and the
    registry credential (login) on their standard input. *)
Example deploy_on_dev :
  fst (Demo.deploy Demo.flags (Demo.dev true true)) = Ret None /\
  map (fun c => (prog (fst c), head (args (fst c)), succeeded (snd c)))
      (execs (snd (Demo.deploy Demo.flags (Demo.dev true true))))
  = [("aws", Some "sts", true); ("docker", Some "build", true);
     ("aws", Some "sts", true); ("aws", Some "ecr", true);
     ("docker", Some "login", true); ("aws", Some "ecr", false);
     ("aws", Some "ecr", true); ("docker", Some "push", true);
     ("kubectl", Some "apply", true); ("curl", Some "-sS", true)] /\
  omap (fun c => if prog (fst c) =? "docker" then stdin (fst c) else None)
       (execs (snd (Demo.deploy Demo.flags (Demo.dev true true))))
  = [nodeDockerfile; "secret-token"].
Proof. vm_compute. repeat split. Qed.

(** ** The label of a failed attachment *)







Section LabelProperties.

Variable json_Marshal : deployReport -> string.
Variable filepath_Join : list string -> string.
Variable filepath_Dir : string -> string.
Variable RecommendedHomeFile : string.








End LabelProperties.

(* ===================================================================== *)
(** * The claims                                                          *)
(* ===================================================================== *)

(** C3. Push stage: identity, (tagging of a local name), credential, login,
    repository check, (repository creation), push are run in that order and
    none of the five mandatory steps is skipped; each step is run only after
    the previous one succeeded, the failed existence check apart, which is
    followed by the creation; the creation is run exactly when the check
    failed; a failure of any other step ends the stage at once with an error,
    so that a push is attempted only after identity, credential and login
    succeeded and the repository was found or created; and the stage reports
    success only after a successful push. *)
Theorem push_stage_order (imageRef : string) (w : World) :
  let res := fst (run (dockerPushWithECRLogin imageRef) w) in
  let ss := steps (snd (run (dockerPushWithECRLogin imageRef) w)) in
  StronglySorted lt (map (fun s => rank (fst s)) ss) /\
  List.filter mandatory (map fst ss)
    `prefix_of` [Identity; Credential; Login; CheckRepo; Push] /\
  (forall i s ok s', ss !! i = Some (s, ok) -> ss !! S i = Some s' ->
     ok = true \/ (s = CheckRepo /\ fst s' = CreateRepo)) /\
  (forall i, ss !! i = Some (CheckRepo, false) <->
             exists ok, ss !! S i = Some (CreateRepo, ok)) /\
  (forall s, (s, false) ∈ ss -> s <> CheckRepo -> exists e, res = Ret (Some e)) /\
  (forall ok, (Push, ok) ∈ ss ->
     (Identity, true) ∈ ss /\ (Credential, true) ∈ ss /\ (Login, true) ∈ ss /\
     ((CheckRepo, true) ∈ ss \/ (CreateRepo, true) ∈ ss)) /\
  (res = Ret None -> last ss = Some (Push, true)).
Proof.
  unfold run.
  destruct (dockerPushWithECRLogin_runs imageRef w []) as (evs & res & E & H & _).
  rewrite E. cbn [fst snd app]. apply PushRun_discipline, H.
Qed.

(** On the development machine the push of a local image name succeeds,
    and its last step is the successful push. *)
Lemma push_stage_order_witness :
  last (steps (snd (run (dockerPushWithECRLogin "shop:latest")
                        (Demo.dev true true)))) = Some (Push, true).
Proof.
  apply (push_stage_order "shop:latest" (Demo.dev true true)).
  vm_compute. reflexivity.
Defined.

(** C10. The push stage is not total: for every image reference that
    contains the registry marker [.dkr.ecr.] and no slash, in every world
    where the account identity resolves, the split on the slash has one
    element, the guard on its length is false (as it is for every string),
    and the stage panics on element 1, after the identity step and before any
    other command. *)
Theorem push_panics_without_slash (imageRef : string) (w : World)
    (Hremote : Contains imageRef ".dkr.ecr." = true)
    (Hslash : Contains imageRef "/" = false)
    (Hidentity : forall tr,
        let r := respond w tr (Exec (mkCmd "aws" identityArgs None true)) in
        r_err r = None /\ isEmpty (TrimSpace (r_out r)) = false) :
  (forall s, (length (Split s "/") <? 1)%nat = false) /\
  Split imageRef "/" = [imageRef] /\
  fst (run (dockerPushWithECRLogin imageRef) w)
    = Panic "runtime error: index out of range [1] with length 1" /\
  steps (snd (run (dockerPushWithECRLogin imageRef) w)) = [(Identity, true)].
Proof.
  split; [|split; [apply Split_no_slash, Hslash|]].
  { intros s. pose proof (Split_length s "/"). apply Nat.ltb_ge. lia. }
  assert (Hrun : exists tr,
             run (dockerPushWithECRLogin imageRef) w
             = (Panic "runtime error: index out of range [1] with length 1", tr)
             /\ steps tr = [(Identity, true)]).
  { unfold run, dockerPushWithECRLogin. unfold bind at 1.
    destruct (awsRegion_runs w []) as (evs & res & E & Hs & _ & region & ->).
    rewrite E. cbn [app]. unfold Output, bind, perform, ret.
    destruct (Hidentity evs) as [He Ha]. cbn beta zeta in He, Ha.
    cbn [fst snd]. rewrite He, Ha, Hremote. cbn [negb].
    unfold pushResolved. rewrite (Split_no_slash _ Hslash).
    eexists. split; [reflexivity|].
    rewrite steps_app, Hs. cbn. unfold succeeded. rewrite He. reflexivity. }
  destruct Hrun as (tr & -> & Hs). split; [reflexivity | exact Hs].
Qed.

Lemma push_panics_without_slash_witness :
  fst (run (dockerPushWithECRLogin "123456789012.dkr.ecr.us-east-1.amazonaws.com")
           (Demo.dev true true))
  = Panic "runtime error: index out of range [1] with length 1".
Proof.
  apply (push_panics_without_slash
           "123456789012.dkr.ecr.us-east-1.amazonaws.com" (Demo.dev true true)).
  - reflexivity.
  - reflexivity.
  - intros tr. split; reflexivity.
Defined.

Section Claims.

Variable json_Marshal : deployReport -> string.
Variable filepath_Join : list string -> string.
Variable filepath_Dir : string -> string.
Variable RecommendedHomeFile : string.

(** C2. Build stage, for every source path, image reference and build
    environment, in every world: when a pack tool is found the first command
    run is the pack build, and its success is the success of the stage; when
    the pack build fails, or when no pack tool is found, the stage falls back
    to one Docker build fed on its standard input the Dockerfile selected by
    the markers probed in the source tree, in this order: [package.json]
    gives the Node template; else [requirements.txt] the Python template;
    else [go.mod] the Go template; else the alpine placeholder.  The
    outcome of the fallback build is the outcome of the stage. *)
Theorem build_falls_back_to_docker (appPath imageRef : string) (envs : list string) :
  runs (buildApplication filepath_Join filepath_Dir appPath imageRef envs)
       (BuildRun filepath_Join appPath imageRef envs) /\
  runs (createDockerfile filepath_Join appPath)
       (fun probes res =>
          exists dockerfile, res = Ret dockerfile /\
                             Selected filepath_Join appPath probes dockerfile).
Proof.
  split.
  - eapply runs_weaken; [apply buildApplication_runs|]. intros ? ? [H _]. exact H.
  - eapply runs_weaken; [apply createDockerfile_runs|]. intros ? ? [H _]. exact H.
Qed.

(** C8. The fallback build, for every source path, image reference and
    environment list, in every world, runs exactly one command,
    [docker build --platform linux/amd64 -t imageRef -f - appPath], after
    probing the markers; its outcome is the outcome of the build. *)
Theorem docker_build_targets_linux_amd64 (appPath imageRef : string)
    (envs : list string) :
  runs (buildWithDocker filepath_Join appPath imageRef envs)
       (fun evs res =>
          exists dockerfile r,
            execs evs =
              [(mkCmd "docker"
                      ["build"; "--platform"; "linux/amd64"; "-t"; imageRef;
                       "-f"; "-"; appPath]
                      (Some dockerfile) false, r)] /\
            res = Ret (r_err r)).
Proof.
  eapply runs_weaken; [apply buildWithDocker_runs|].
  intros evs res [H _]. inversion H as [probes dockerfile r Hsel]; subst.
  exists dockerfile, r. split; [|reflexivity].
  unfold execs. rewrite omap_app. inversion Hsel; reflexivity.
Qed.

End Claims.

(** C7. The descriptor rendered is, line by line, that of a Knative
    Service of the given name and namespace whose revision template carries
    the annotation [autoscaling.knative.dev/minScale: "1"] in its metadata
    and the container of the given image and port in its spec, followed by
    the environment; this for every name, image, namespace, resource
    strings, environment and port, the annotation and its value being the
    same in all.  Applying it is one command and nothing else,
    [kubectl apply -f -] (after [--context ctx] when a context is given) fed
    the descriptor on its standard input, whatever was run before; the
    outcome of the command is the outcome of the step. *)
Theorem service_descriptor_keeps_one_instance
    (name image ns cpu mem : string) (port : Z) :
  (forall env : list (string * string),
      newKnServiceYAML name image ns cpu mem env port
      = Join (descriptorLines name image ns port env) nl) /\
  (forall env : list (string * string),
      descriptorLines name image ns port env !! 8%nat = Some "      annotations:" /\
      descriptorLines name image ns port env !! 9%nat
      = Some ("        autoscaling.knative.dev/minScale: " ++ quoted "1")) /\
  (forall (env : gmap string string) (ctx : string) (w : World) (tr : Trace),
      let descriptor := Join (descriptorLines name image ns port (range_order w env)) nl in
      let args := if isEmpty ctx then ["apply"; "-f"; "-"]
                  else ["--context"; ctx; "apply"; "-f"; "-"] in
      let cmd := mkCmd "kubectl" args (Some descriptor) false in
      let r := respond w tr (Exec cmd) in
      knServiceApply name image ns cpu mem env ctx port w tr
      = (Ret (r_err r), (tr ++ [(Exec cmd, r)])%list)).
Proof.
  assert (Hlines : forall env : list (string * string),
             newKnServiceYAML name image ns cpu mem env port
             = Join (descriptorLines name image ns port env) nl).
  { intros env. unfold newKnServiceYAML, descriptorLines, serviceLines.
    destruct env as [|kv env]; [reflexivity|].
    rewrite length_map. cbn [length Nat.ltb Nat.leb envSection app].
    rewrite !Join_cons.
    rewrite (Join_cons_ne "        env:")
      by (intros H; apply app_eq_nil in H as [_ H]; discriminate H).
    rewrite (Join_two_lines (fun kv => "          - name: " ++ fst kv)
               (fun kv => "            value: " ++ quoted (snd kv)) (kv :: env))
      by discriminate.
    rewrite !append_assoc_string. reflexivity. }
  split; [exact Hlines|]. split; [intros env; split; reflexivity|].
  intros env ctx w tr. cbv zeta.
  unfold knServiceApply, rangeMap, Run, bind, perform, ret.
  rewrite Hlines. unfold kubectlArgs. destruct ctx; reflexivity.
Qed.

Section RunClaims.

Variable json_Marshal : deployReport -> string.
Variable filepath_Join : list string -> string.
Variable filepath_Dir : string -> string.
Variable RecommendedHomeFile : string.

Local Abbreviation deploy :=
  (deployRun json_Marshal filepath_Join filepath_Dir RecommendedHomeFile).


(** C9. The report never decides the outcome: in two worlds that differ at
    most in what the report's POST answers, the run ends with the same
    result; a run in which the report is posted ends in success; and with no
    server configured no report is posted. *)
Theorem report_never_decides (f : DeployFlags) :
  (forall w1 w2, agreeExceptReport w1 w2 ->
                 fst (run (deploy f) w1) = fst (run (deploy f) w2)) /\
  (forall w, Exists (fun ev => isReport (fst ev) = true) (snd (run (deploy f) w)) ->
             fst (run (deploy f) w) = Ret None) /\
  (forall w, serverURL f = "" ->
             Forall (fun ev => isReport (fst ev) = false) (snd (run (deploy f) w))).
Proof.
  split; [|split].
  - intros w1 w2 H. apply deployRun_sameResult, H.
  - intros w. unfold run.
    destruct (deployRun_runs json_Marshal filepath_Join filepath_Dir
                RecommendedHomeFile f w []) as (evs & res & E & H).
    rewrite E. cbn [fst snd app]. intros Hex.
    assert (Hno : forall l, Forall unreported l ->
                            ~ Exists (fun ev => isReport (fst ev) = true) l).
    { intros l Hl Hx. apply List.Exists_exists in Hx as (ev & Hin & Hr).
      rewrite List.Forall_forall in Hl. specialize (Hl _ Hin).
      unfold unreported in Hl. congruence. }
    assert (Hquiet : forall l, Forall quiet l -> Forall unreported l).
    { intros l Hl. eapply Forall_impl; [exact Hl | apply quiet_unreported]. }
    inversion H as [? ? Hq _ | pre evs' ? Hq Ha Hr]; subst.
    + destruct (Hno _ (Hquiet _ Hq) Hex).
    + apply Exists_app in Hex as [Hex | Hex]; [destruct (Hno _ (Hquiet _ Hq) Hex)|].
      inversion Hr as [? ? ? ? _ Hu _ _ | ? ? _ _ Hu | ? _ _]; subst;
        [destruct (Hno _ Hu Hex) | destruct (Hno _ Hu Hex) | reflexivity].
  - intros w Hs. unfold run.
    destruct (deployRun_runs json_Marshal filepath_Join filepath_Dir
                RecommendedHomeFile f w []) as (evs & res & E & H).
    rewrite E. cbn [fst snd app].
    assert (Hquiet : forall l, Forall quiet l -> Forall unreported l).
    { intros l Hl. eapply Forall_impl; [exact Hl | apply quiet_unreported]. }
    inversion H as [? ? Hq _ | pre evs' ? Hq Ha Hr]; subst; [apply Hquiet, Hq|].
    apply Forall_app. split; [apply Hquiet, Hq|].
    inversion Hr as [? ? ? ? _ Hu _ _ | ? ? _ _ Hu | ? _ Hu]; subst; auto.
Qed.

End RunClaims.

Lemma last_In {A} (l : list A) (x : A) : last l = Some x -> In x l.
Proof. intros H. apply list_elem_of_In, last_Some_elem_of, H. Qed.





Lemma dev_worlds_agree : agreeExceptReport (Demo.dev true true) (Demo.dev true false).
Proof.
  split; [reflexivity|]. intros tr o Ho. unfold Demo.dev, respond, Demo.respondDev.
  destruct o; try reflexivity. rewrite Ho. reflexivity.
Qed.

Lemma report_never_decides_witness :
  fst (Demo.deploy Demo.flags (Demo.dev true true))
  = fst (Demo.deploy Demo.flags (Demo.dev true false)).
Proof.
  unfold Demo.deploy.
  exact (proj1 (report_never_decides Demo.marshal Demo.joinPath Demo.dirOf
                  Demo.home Demo.flags) _ _ dev_worlds_agree).
Defined.

Module AgentClaims.
Import Agent AgentProperties.

(** C4. The fix selector returns no fix for no error and for an error whose
    candidate list is empty; its result is a strategy or nothing, there is no
    error to report. *)
Theorem selectBestFix_none_without_candidates (d : DeploymentError) :
  Suggestions d = [] ->
  selectBestFix None = None /\ selectBestFix (Some d) = None.
Proof. intros H. unfold selectBestFix. rewrite H. split; reflexivity. Qed.

Lemma selectBestFix_none_without_candidates_witness :
  selectBestFix None = None /\
  selectBestFix (Some (mkError (mkPattern "unknown_error" []) [])) = None.
Proof.
  apply (selectBestFix_none_without_candidates
           (mkError (mkPattern "unknown_error" []) [])).
  reflexivity.
Defined.

(** C5. For an error with candidates the fix selector returns one
    strategy: a candidate, of confidence at least that of every candidate,
    and the first such in the order of the list (every candidate before it
    has a strictly lower confidence).  For candidates of confidences 0.3,
    0.9 and 0.6 it returns the one of confidence 0.9. *)
Theorem selectBestFix_highest_confidence (d : DeploymentError) :
  Suggestions d <> [] ->
  (exists s i,
      selectBestFix (Some d) = Some s /\
      Suggestions d !! i = Some s /\
      (forall t, In t (Suggestions d) -> Qle (Confidence t) (Confidence s)) /\
      (forall j t, (j < i)%nat -> Suggestions d !! j = Some t ->
                   Qlt (Confidence t) (Confidence s))) /\
  (forall p a b c,
      Confidence a = 0.3%Q -> Confidence b = 0.9%Q -> Confidence c = 0.6%Q ->
      selectBestFix (Some (mkError p [a; b; c])) = Some b).
Proof.
  intros Hne. split.
  - unfold selectBestFix. destruct (Suggestions d) as [|x l]; [congruence|].
    apply head_rankFixes.
  - intros p [na ca da ka] [nb cb db kb] [nc cc dc kc] Ha Hb Hc.
    cbn [Confidence] in Ha, Hb, Hc. subst. reflexivity.
Qed.

Lemma selectBestFix_highest_confidence_witness :
  selectBestFix
    (Some (mkError (mkPattern "buildpack_failure" ["failed to fetch base layers"])
                   [candidate "retry_build" 0.3; candidate "docker_fallback" 0.9;
                    candidate "clear_cache" 0.6]))
  = Some (candidate "docker_fallback" 0.9).
Proof.
  apply (selectBestFix_highest_confidence
           (mkError (mkPattern "buildpack_failure" ["failed to fetch base layers"])
                    [candidate "retry_build" 0.3; candidate "docker_fallback" 0.9;
                     candidate "clear_cache" 0.6]));
    [discriminate | reflexivity | reflexivity | reflexivity].
Defined.




End AgentClaims.

(* ===================================================================== *)
(** * Further properties of the code                                      *)
(* ===================================================================== *)

(** ** Cutting at a one-byte separator *)

Lemma HasPrefix_one c a s :
  HasPrefix (String a s) (String c EmptyString) = Ascii.eqb c a.
Proof. cbn. destruct (Ascii.eqb c a); reflexivity. Qed.

Lemma Contains_one_cons c a s :
  Contains (String a s) (String c EmptyString) = false ->
  Ascii.eqb c a = false /\ Contains s (String c EmptyString) = false.
Proof.
  cbn [Contains]. rewrite (HasPrefix_one c a s). intros H.
  apply orb_false_iff in H. exact H.
Qed.

(** nothing to cut *)
Lemma genSplit_no_sep c cuts s :
  Contains s (String c EmptyString) = false ->
  genSplit (String c EmptyString) cuts 0 s = [s].
Proof.
  induction s as [|a s IH]; intros H; [reflexivity|].
  apply Contains_one_cons in H as [Ha Hs].
  cbn [genSplit]. rewrite (HasPrefix_one c a s), Ha, andb_false_r, (IH Hs).
  reflexivity.
Qed.

(** no cut left *)
Lemma genSplit_no_cut sep s : genSplit sep (Some 0%nat) 0 s = [s].
Proof.
  induction s as [|a s IH]; [reflexivity|].
  cbn [genSplit andb]. rewrite IH. reflexivity.
Qed.

(** the first cut *)
Lemma genSplit_cut c cuts k v :
  cuts <> Some 0%nat ->
  Contains k (String c EmptyString) = false ->
  genSplit (String c EmptyString) cuts 0 (k ++ String c v)
  = k :: genSplit (String c EmptyString) (option_map Nat.pred cuts) 0 v.
Proof.
  intros Hc. induction k as [|a k IH]; intros H.
  - change ("" ++ String c v) with (String c v). cbn [genSplit].
    rewrite (HasPrefix_one c c v), Ascii.eqb_refl.
    destruct cuts as [[|n]|]; [congruence | reflexivity | reflexivity].
  - apply Contains_one_cons in H as [Ha Hk].
    change (String a k ++ String c v) with (String a (k ++ String c v)).
    cbn [genSplit].
    rewrite (HasPrefix_one c a (k ++ String c v)), Ha, andb_false_r, (IH Hk).
    reflexivity.
Qed.

Lemma SplitN_pair k v :
  Contains k "=" = false -> SplitN (k ++ "=" ++ v) "=" 2 = [k; v].
Proof.
  intros H. unfold SplitN. cbn [Nat.sub].
  change ("=" ++ v) with (String "=" v).
  rewrite (genSplit_cut "=" (Some 1%nat) k v) by (congruence || exact H).
  cbn [option_map Nat.pred]. rewrite genSplit_no_cut. reflexivity.
Qed.

Lemma SplitN_whole p : Contains p "=" = false -> SplitN p "=" 2 = [p].
Proof. intros H. unfold SplitN. apply genSplit_no_sep, H. Qed.

(** A pair with an equals sign splits in two at the first one. *)
Lemma SplitN_equals p :
  Contains p "=" = true -> exists k v, SplitN p "=" 2 = [k; v] /\ p = k ++ "=" ++ v.
Proof.
  induction p as [|a p IH]; intros H; [discriminate|].
  cbn [Contains] in H. rewrite (HasPrefix_one "=" a p) in H.
  destruct (Ascii.eqb "=" a) eqn:Ea.
  - apply Ascii.eqb_eq in Ea as <-. exists "", p.
    split; [apply (SplitN_pair "" p); reflexivity | reflexivity].
  - cbn [orb] in H. destruct (IH H) as (k & v & Hs & ->).
    exists (String a k), v. split; [|reflexivity].
    unfold SplitN in *. cbn [Nat.sub] in *.
    cbn [genSplit].
    rewrite (HasPrefix_one "=" a (k ++ "=" ++ v)), Ea, andb_false_r, Hs.
    reflexivity.
Qed.

(** The last piece of a path is what follows its last slash. *)
Lemma Split_last_component dir name :
  Contains name "/" = false ->
  exists p init, Split (dir ++ "/" ++ name) "/" = (p :: init ++ [name])%list.
Proof.
  intros H. unfold Split. induction dir as [|a dir (p & init & IH)].
  - exists "", []. change ("" ++ "/" ++ name) with ("" ++ String "/" name).
    rewrite genSplit_cut by (congruence || reflexivity).
    rewrite genSplit_no_sep by exact H. reflexivity.
  - change (String a dir ++ "/" ++ name) with (String a (dir ++ "/" ++ name)).
    cbn [genSplit andb]. rewrite (HasPrefix_one "/" a (dir ++ "/" ++ name)).
    destruct (Ascii.eqb "/" a).
    + cbn [option_map String.length Nat.sub]. rewrite IH.
      exists "", (p :: init). reflexivity.
    + rewrite IH. exists (String a p), init. reflexivity.
Qed.

(** ** Pairs of the form key=value *)

Lemma toEnvMap_snoc pairs p :
  toEnvMap (pairs ++ [p]) =
  match SplitN p "=" 2 with
  | [k; v] => <[k := v]> (toEnvMap pairs)
  | _ => toEnvMap pairs
  end.
Proof. unfold toEnvMap. rewrite foldl_app. reflexivity. Qed.

(** X1. [toEnvMap] reads the pairs from left to right: a pair [k=v] (cut at
    its first equals sign) binds [k] to [v], over any earlier binding of [k];
    an entry without equals sign is ignored. *)
Theorem toEnvMap_last_pair_wins (pairs : list string) (k v p : string) :
  Contains k "=" = false ->
  Contains p "=" = false ->
  toEnvMap (pairs ++ [k ++ "=" ++ v]) = <[k := v]> (toEnvMap pairs) /\
  toEnvMap (pairs ++ [k ++ "=" ++ v]) !! k = Some v /\
  toEnvMap (pairs ++ [p]) = toEnvMap pairs /\
  toEnvMap (pairs ++ [k ++ "=" ++ v; p]) !! k = Some v.
Proof.
  intros Hk Hp.
  assert (E1 : toEnvMap (pairs ++ [k ++ "=" ++ v]) = <[k := v]> (toEnvMap pairs))
    by (rewrite toEnvMap_snoc, (SplitN_pair k v Hk); reflexivity).
  assert (E2 : forall l, toEnvMap (l ++ [p]) = toEnvMap l)
    by (intros l; rewrite toEnvMap_snoc, (SplitN_whole p Hp); reflexivity).
  split; [exact E1|]. split; [rewrite E1; apply lookup_insert_eq|].
  split; [apply E2|].
  replace (toEnvMap (pairs ++ [k ++ "=" ++ v; p]))
    with (toEnvMap ((pairs ++ [k ++ "=" ++ v]) ++ [p]))
    by (rewrite <- app_assoc; reflexivity).
  rewrite E2, E1. apply lookup_insert_eq.
Qed.

Lemma toEnvMap_last_pair_wins_witness :
  toEnvMap (["MODE=dev"] ++ ["MODE=prod=eu"; "verbose"]) !! "MODE" = Some "prod=eu".
Proof.
  apply (toEnvMap_last_pair_wins ["MODE=dev"] "MODE" "prod=eu" "verbose");
    reflexivity.
Defined.

Lemma secretData_wellFormed pairs data :
  wellFormed pairs ->
  secretData pairs data =
  inr (foldl (fun m p => match SplitN p "=" 2 with
                         | [k; v] => <[k := v]> m
                         | _ => m
                         end) data pairs).
Proof.
  intros H. revert data. induction H as [|p pairs Hp _ IH]; intros data.
  - reflexivity.
  - destruct (SplitN_equals p Hp) as (k & v & E & _).
    cbn [secretData foldl]. rewrite E. apply IH.
Qed.

Lemma pairData_wellFormed pairs data :
  wellFormed pairs -> pairData pairs data = secretData pairs data.
Proof.
  intros H. revert data. induction H as [|p pairs Hp _ IH]; intros data.
  - reflexivity.
  - destruct (SplitN_equals p Hp) as (k & v & E & _).
    cbn [secretData pairData]. rewrite E. apply IH.
Qed.

Lemma secretData_first_malformed good p rest data :
  wellFormed good -> Contains p "=" = false ->
  secretData (good ++ p :: rest) data = inl ("invalid secret pair: " ++ p).
Proof.
  intros H Hp. revert data. induction H as [|q good Hq _ IH]; intros data.
  - cbn [app secretData]. rewrite (SplitN_whole p Hp). reflexivity.
  - destruct (SplitN_equals q Hq) as (k & v & E & _).
    cbn [app secretData]. rewrite E. apply IH.
Qed.

Lemma clientFailed_last evs ev e :
  last evs = Some ev -> clientFailure ev = Some e ->
  Forall (fun ev => clientFailure ev = None) (removelast evs) ->
  secretOps evs = [] -> clientFailed evs e.
Proof.
  intros Hl Hf Hpre Hs. exists (removelast evs), ev.
  split; [|split; [exact Hf | split; [exact Hpre | exact Hs]]].
  destruct (exists_last (l := evs)) as (pre & x & E).
  { intros ->. discriminate Hl. }
  rewrite E, last_snoc in Hl. injection Hl as ->.
  rewrite E, removelast_last. reflexivity.
Qed.

Section AttachmentProperties.

Variable RecommendedHomeFile : string.

(** Closes [Forall] of a property that computes, on explicit events. *)
Ltac computed_events :=
  repeat first
    [ exact (List.Forall_nil _)
    | apply List.Forall_cons; [reflexivity|] ].

(** Closes [clientFailed evs e] and [clientBuilt evs] on explicit events. *)
Ltac client_leaf :=
  first
    [ eapply clientFailed_last;
        [ reflexivity | reflexivity | cbn [removelast]; computed_events | reflexivity ]
    | split; [eexists; split; reflexivity | split; [computed_events | reflexivity]] ].

(** Closes a goal [UpsertRun ns name data evs res] on explicit events. *)
Ltac upsert_leaf :=
  first
    [ apply upsert_no_client; client_leaf
    | match goal with
      | |- UpsertRun _ _ _ [?a; ?b; (_, ?g); (_, ?r)] _ =>
          refine (upsert_written _ _ _ [a; b] g r _); client_leaf
      | |- UpsertRun _ _ _ [?a; ?b; ?c; ?d; (_, ?g); (_, ?r)] _ =>
          refine (upsert_written _ _ _ [a; b; c; d] g r _); client_leaf
      end ].

Lemma upsertSecret_after_client namespace name data :
  runs (c <- getClient RecommendedHomeFile namespace ;;
        match snd c with
        | Some e => ret (Some e)
        | None => upsertSecret (fst c) name data
        end)
       (UpsertRun namespace name data).
Proof.
  unfold getClient, upsertSecret, os_Getenv.
  run_steps; upsert_leaf.
Qed.

(** X3. Each attachment of the [deploy] command touches one secret: the
    database step the secret [<project>-db] with the single entry
    [DATABASE_URL] (a postgres URL built from the flags), the Redis step the
    secret [<project>-redis] with the single entry [REDIS_URL].  When the
    client cannot be built (reading the kubeconfig file or making the client
    failed, the last operation of the step) no secret is touched and the
    step fails with the error of that operation; otherwise the client is
    built, the secret is looked up once, in the given namespace ([default]
    for the empty one), and then written once, by an update when the lookup
    succeeded and by a creation when it failed, never both, these two being
    the last operations of the step; the outcome of that write is the
    outcome of the step. *)
Theorem attachments_write_one_secret
    (name ns user password host db ctx : string) (prt : Z) :
  runs (attachDatabase RecommendedHomeFile name ns user password host prt db ctx)
       (UpsertRun ns (name ++ "-db")
          {[ "DATABASE_URL" := "postgres://" ++ user ++ ":" ++ password ++ "@"
                               ++ host ++ ":" ++ fmt_d prt ++ "/" ++ db ]}) /\
  runs (attachRedis RecommendedHomeFile name ns host prt password ctx)
       (UpsertRun ns (name ++ "-redis")
          {[ "REDIS_URL" := "redis://:" ++ password ++ "@" ++ host ++ ":"
                            ++ fmt_d prt ]}).
Proof. split; apply upsertSecret_after_client. Qed.

(** X2. [createSecrets] and the pairs it is given.  When every pair has an
    equals sign, the step does what an attachment does on the secret
    [<project>-secrets] with the entries that [toEnvMap] reads from the same
    pairs (the later pair wins for a repeated key): the client is built, the
    secret looked up once and written once, or the client cannot be built
    and its error is returned.  When some pair has none, no secret is looked
    up or written and the step fails: with the error
    [invalid secret pair: p] for the first such pair [p] once the client is
    built, and with the error of the client when it cannot be built. *)
Theorem createSecrets_pairs (name ns ctx : string) (pairs good rest : list string)
    (p : string) :
  (wellFormed pairs ->
   runs (createSecrets RecommendedHomeFile name ns pairs ctx)
        (UpsertRun ns (name ++ "-secrets") (toEnvMap pairs))) /\
  (wellFormed good -> Contains p "=" = false ->
   runs (createSecrets RecommendedHomeFile name ns (good ++ p :: rest) ctx)
        (RefusedRun p)).
Proof.
  split.
  - intros H. unfold createSecrets.
    rewrite (secretData_wellFormed pairs ∅ H).
    apply upsertSecret_after_client.
  - intros H Hp. unfold createSecrets.
    rewrite (secretData_first_malformed good p rest ∅ H Hp).
    unfold getClient, os_Getenv.
    run_steps;
      first [ apply refused_no_client; client_leaf
            | apply refused_pair; client_leaf ].
Qed.

(** X4. The standalone commands and the steps of [deploy].  With its
    required flags given, [attach-db] does exactly what the database step
    does, and [attach-redis] what the Redis step does; with well-formed
    pairs, [secrets] on the name [<project>-secrets] does exactly what the
    secrets step does for [<project>].  With a required flag missing each
    command fails without performing any operation. *)
Theorem commands_agree_with_deploy_steps
    (name ns user password host db ctx : string) (prt : Z) (pairs : list string)
    (w : World) (tr : Trace) :
  (name <> "" -> host <> "" -> db <> "" ->
   attachDBCmd RecommendedHomeFile name ns user password host db prt w tr
   = attachDatabase RecommendedHomeFile name ns user password host prt db ctx w tr) /\
  (name <> "" -> host <> "" ->
   attachRedisCmd RecommendedHomeFile name ns host password prt w tr
   = attachRedis RecommendedHomeFile name ns host prt password ctx w tr) /\
  (wellFormed pairs ->
   secretsCmd RecommendedHomeFile (name ++ "-secrets") ns pairs w tr
   = createSecrets RecommendedHomeFile name ns pairs ctx w tr) /\
  (name = "" \/ host = "" \/ db = "" ->
   attachDBCmd RecommendedHomeFile name ns user password host db prt w tr
   = (Ret (Some "name, host, db required"), tr)) /\
  (name = "" \/ host = "" ->
   attachRedisCmd RecommendedHomeFile name ns host password prt w tr
   = (Ret (Some "name and host required"), tr)) /\
  secretsCmd RecommendedHomeFile "" ns pairs w tr = (Ret (Some "name required"), tr).
Proof.
  assert (Hclient : forall A (k : string * error -> Go A),
             bind (getClient RecommendedHomeFile
                     (if isEmpty ns then "default" else ns)) k w tr
             = bind (getClient RecommendedHomeFile ns) k w tr).
  { intros A k. destruct ns; reflexivity. }
  repeat split.
  - intros Hn Hh Hd. unfold attachDBCmd, attachDatabase.
    destruct name; [congruence|]. destruct host; [congruence|].
    destruct db; [congruence|]. cbn [isEmpty orb]. cbv zeta. apply Hclient.
  - intros Hn Hh. unfold attachRedisCmd, attachRedis.
    destruct name; [congruence|]. destruct host; [congruence|].
    cbn [isEmpty orb]. cbv zeta. apply Hclient.
  - intros H. unfold secretsCmd, createSecrets.
    rewrite (pairData_wellFormed pairs ∅ H).
    replace (isEmpty (name ++ "-secrets")) with false by (destruct name; reflexivity).
    cbv zeta. apply Hclient.
  - intros [-> | [-> | ->]]; unfold attachDBCmd;
      [| destruct name | destruct name; destruct host]; reflexivity.
  - intros [-> | ->]; unfold attachRedisCmd; [| destruct name]; reflexivity.
Qed.

End AttachmentProperties.

Lemma createSecrets_pairs_witness :
  runs (createSecrets Demo.home "shop" "" ["API_KEY=abc"; "broken"; "X=1"] "")
       (RefusedRun "broken").
Proof.
  refine (proj2 (createSecrets_pairs Demo.home "shop" "" "" [] ["API_KEY=abc"]
                   ["X=1"] "broken") _ _).
  - repeat constructor.
  - reflexivity.
Defined.

Lemma commands_agree_with_deploy_steps_witness :
  attachDBCmd Demo.home "shop" "" "app" "changeme" "db.internal" "shop" 5432
              (Demo.dev true true) []
  = attachDatabase Demo.home "shop" "" "app" "changeme" "db.internal" 5432 "shop" ""
                   (Demo.dev true true) [].
Proof.
  refine (proj1 (commands_agree_with_deploy_steps Demo.home "shop" "" "app"
                   "changeme" "db.internal" "shop" "" 5432 [] (Demo.dev true true) [])
            _ _ _); discriminate.
Defined.

(** ** Project name and image reference *)

Lemma index_last (l : list string) :
  l <> [] -> index l (length l - 1) = ret (default "" (last l)).
Proof.
  intros H. unfold index. rewrite last_lookup.
  replace (Nat.pred (length l)) with (length l - 1)%nat by lia.
  destruct (l !! (length l - 1)%nat) eqn:E; [reflexivity|].
  apply lookup_ge_None in E. destruct l; [congruence | cbn in E; lia].
Qed.

Lemma projectNameOf_path dir name :
  Contains name "/" = false -> projectNameOf (dir ++ "/" ++ name) = name.
Proof.
  intros H. unfold projectNameOf.
  destruct (Split_last_component dir name H) as (p & init & ->).
  rewrite app_comm_cons, last_snoc. reflexivity.
Qed.

Lemma getProjectName_name :
  runs getProjectName
       (fun evs res =>
          exists r, evs = [(Getwd, r)] /\
                    match r_err r with
                    | Some e => res = Ret ("", Some e)
                    | None =>
                        res = Ret (projectNameOf (r_out r), None) /\
                        (forall dir name,
                            r_out r = dir ++ "/" ++ name ->
                            Contains name "/" = false ->
                            res = Ret (name, None))
                    end).
Proof.
  unfold getProjectName.
  apply runs_bind_perform; intros [[e|] out num dir]; run_simpl.
  - run_steps. eexists. split; reflexivity.
  - destruct (Split_head out "/") as (p & ps & E).
    assert (Hlen : (length (Split out "/") =? 0)%nat = false)
      by (rewrite E; reflexivity).
    rewrite Hlen. rewrite index_last by (rewrite E; discriminate).
    run_steps. eexists. split; [reflexivity|]. cbn [r_err r_out].
    split; [reflexivity|]. intros d n -> Hn.
    change (default "" (last (Split (d ++ "/" ++ n) "/")))
      with (projectNameOf (d ++ "/" ++ n)).
    rewrite (projectNameOf_path d n Hn). reflexivity.
Qed.

(** X5. [getProjectName] asks for the working directory and nothing else.
    When that fails its error is returned; otherwise the project name is the
    piece after the last slash of the directory, also the empty name for a
    directory that ends in a slash: the error
    [unable to determine project name] is never returned, and the function
    never panics. *)
Theorem getProjectName_last_component :
  runs getProjectName
       (fun evs res =>
          exists r, evs = [(Getwd, r)] /\
                    match r_err r with
                    | Some e => res = Ret ("", Some e)
                    | None =>
                        res = Ret (projectNameOf (r_out r), None) /\
                        (forall dir name,
                            r_out r = dir ++ "/" ++ name ->
                            Contains name "/" = false ->
                            res = Ret (name, None))
                    end).
Proof. exact (getProjectName_name). Qed.

Lemma runs_run {A} (m : Go A) (Q : Trace -> Result A -> Prop) (w : World) :
  runs m Q -> Q (snd (run m w)) (fst (run m w)).
Proof.
  intros H. unfold run. destruct (H w []) as (evs & res & -> & HQ). exact HQ.
Qed.

Lemma getProjectName_last_component_witness :
  fst (run getProjectName (Demo.dev true true)) = Ret ("shop", None).
Proof.
  destruct (runs_run _ _ (Demo.dev true true) getProjectName_last_component)
    as (r & Hevs & H).
  vm_compute in Hevs. injection Hevs as <-. cbn [r_err r_out] in H.
  exact (proj2 H "/home/dev" "shop" eq_refl eq_refl).
Defined.

(** The region is read from the two variables and is never empty. *)
Lemma awsRegion_region :
  runs awsRegion (fun evs res => Forall isRegionEnv evs /\ steps evs = [] /\
                                 exists region, res = Ret region /\ region <> "").
Proof.
  unfold awsRegion, os_Getenv.
  run_steps;
    (split; [repeat constructor; (left; reflexivity) || (right; reflexivity)|]);
    (split; [reflexivity|]); eexists; (split; [reflexivity|]);
    try discriminate;
    match goal with
    | |- (if isEmpty ?s then _ else _) <> _ => destruct s; discriminate
    end.
Qed.

Lemma Split_dot_head account rest :
  Contains account "." = false ->
  exists ps, Split (account ++ "." ++ rest) "." = account :: ps.
Proof.
  intros H. unfold Split. change ("." ++ rest) with (String "." rest).
  rewrite genSplit_cut by (congruence || exact H). eauto.
Qed.

Lemma not_region_env evs r :
  Forall isRegionEnv evs -> ~ In (Getenv "ECR_URL", r) evs.
Proof.
  intros H Hin. rewrite List.Forall_forall in H.
  destruct (H _ Hin) as [E | E]; discriminate E.
Qed.

Lemma generateImageRef_shape (projectName : string) :
  runs (generateImageRef projectName)
       (fun evs res =>
          (exists ir err,
              res = Ret (ir, err) /\
              match err with
              | Some e => e = "AWS account ID is empty" /\ ir = ""
              | None =>
                  ir = projectName ++ ":latest" \/
                  exists account region,
                    account <> "" /\ region <> "" /\
                    ir = registryRef account region projectName
              end) /\
          (forall r account rest,
              In (Getenv "ECR_URL", r) evs ->
              r_out r = account ++ "." ++ rest ->
              Contains account "." = false ->
              Contains account "dkr" = false ->
              res = Ret (projectName ++ ":latest", None))).
Proof.
  unfold generateImageRef.
  eapply runs_bind; [apply awsRegion_region | | intros ? ? (_ & _ & ? & [=] & _)].
  intros evs0 region (Hreg & _ & ? & [= <-] & Hne). cbn beta.
  unfold Output, os_Getenv, Printf.
  run_steps.
  all: try match goal with
       | |- context [Split ?x "."] =>
           let E := fresh "E" in
           destruct (Split_head x ".") as (? & ? & E); rewrite E
       end; run_steps.
  all: try match goal with
       | |- context [Split ?x "."] =>
           let E := fresh "E" in
           destruct (Split_head x ".") as (? & ? & E); rewrite E, index_head
       end; run_steps.
  all: try match goal with H : false = true |- _ => discriminate H end.
  all: split;
    [ eexists _, _; split; [reflexivity|]; cbn beta iota;
      first [ split; reflexivity
            | left; reflexivity
            | right; eexists _, _; split;
                [ let Hc := fresh in
                  intros Hc;
                  match goal with
                  | H : isEmpty _ = false |- _ => rewrite Hc in H; discriminate H
                  end
                | split; [exact Hne | reflexivity] ] ]
    | intros r0 account rest Hin Hout Hdot Hdkr;
      first
        [ reflexivity
        | exfalso;
          apply in_app_or in Hin as [Hin | Hin];
          [ exact (not_region_env _ _ Hreg Hin)
          | cbn [In] in Hin;
            repeat (destruct Hin as [Hin | Hin]; [try discriminate Hin|]);
            try contradiction;
            injection Hin as <-; cbn [r_out] in Hout; subst;
            destruct (Split_dot_head account rest Hdot) as (ps & Hs);
            congruence ] ] ].
Qed.

(** X6. [generateImageRef] never panics and fails only with
    [AWS account ID is empty], when the identity call succeeded with a blank
    answer.  Otherwise the reference is either the registry reference
    [<account>.dkr.ecr.<region>.amazonaws.com/<project>:latest], for a
    non-empty account and region, or the local name [<project>:latest].
    The fallback on [ECR_URL] takes an account only from a URL whose first
    label holds [dkr]: for a URL of the form [<account>.<rest>] with an
    account free of dots and of [dkr], such as
    [123456789012.dkr.ecr.us-east-1.amazonaws.com], the account is not taken
    and the local name is returned. *)
Theorem generateImageRef_forms (projectName : string) :
  runs (generateImageRef projectName)
       (fun evs res =>
          (exists ir err,
              res = Ret (ir, err) /\
              match err with
              | Some e => e = "AWS account ID is empty" /\ ir = ""
              | None =>
                  ir = projectName ++ ":latest" \/
                  exists account region,
                    account <> "" /\ region <> "" /\
                    ir = registryRef account region projectName
              end) /\
          (forall r account rest,
              In (Getenv "ECR_URL", r) evs ->
              r_out r = account ++ "." ++ rest ->
              Contains account "." = false ->
              Contains account "dkr" = false ->
              res = Ret (projectName ++ ":latest", None))).
Proof. exact (generateImageRef_shape projectName). Qed.

Lemma generateImageRef_forms_witness :
  fst (run (generateImageRef "shop") Offline.world) = Ret ("shop:latest", None).
Proof.
  refine (proj2 (runs_run _ _ Offline.world (generateImageRef_forms "shop"))
                (Demo.ok Offline.registry) "123456789012"
                "dkr.ecr.us-east-1.amazonaws.com" _ _ _ _).
  - refine (nth_error_In _ 4 _). vm_compute. reflexivity.
  - reflexivity.
  - vm_compute. reflexivity.
  - vm_compute. reflexivity.
Defined.

(** ** When the deploy command panics *)

Lemma AuthRun_returns ss res : AuthRun ss res -> exists e, res = Ret e.
Proof. intros H. inversion H; eauto. Qed.

Lemma registryRef_has_slash account region project :
  Contains (registryRef account region project) "/" = true.
Proof.
  unfold registryRef. do 3 apply Contains_app_r. apply Contains_app_l. reflexivity.
Qed.

Lemma pushResolved_panic imageRef region :
  runs (pushResolved imageRef region)
       (fun evs res => forall msg, res = Panic msg -> Contains imageRef "/" = false).
Proof.
  eapply runs_weaken; [apply pushResolved_runs|].
  intros evs res [[H | (Hlen & _ & _)] _] msg ->.
  - apply AuthRun_returns in H as [e [=]].
  - destruct (Contains imageRef "/") eqn:E; [|reflexivity].
    apply Split_slash in E. lia.
Qed.

(** The push stage panics only on a reference that holds the registry
    marker and no slash. *)
Lemma dockerPushWithECRLogin_panic imageRef :
  runs (dockerPushWithECRLogin imageRef)
       (fun evs res =>
          forall msg, res = Panic msg ->
                      Contains imageRef registryMarker = true /\
                      Contains imageRef "/" = false).
Proof.
  unfold dockerPushWithECRLogin.
  eapply runs_bind; [apply awsRegion_runs | | intros ? ? (_ & _ & ? & [=])].
  intros evs0 region _. cbn beta.
  unfold Output, Printf, Run.
  run_steps; try (intros ? [=]).
  - destruct (Split_head imageRef ":") as (projectName & qs & E). rewrite E.
    rewrite index_head. run_steps; try (intros ? [=]).
    eapply runs_weaken; [apply pushResolved_panic|].
    intros evs res H msg Hp. specialize (H msg Hp).
    change (TrimSpace r_out0 ++ ".dkr.ecr." ++ region ++ ".amazonaws.com/"
            ++ projectName ++ ":latest")
      with (registryRef (TrimSpace r_out0) region projectName) in H.
    rewrite registryRef_has_slash in H. discriminate H.
  - eapply runs_weaken; [apply pushResolved_panic|].
    intros evs res H msg Hp. split; [|exact (H msg Hp)].
    unfold registryMarker. destruct (Contains imageRef ".dkr.ecr."); [reflexivity|].
    discriminate.
Qed.

Lemma BuildRun_returns join appPath imageRef envs evs res :
  BuildRun join appPath imageRef envs evs res -> exists e, res = Ret e.
Proof.
  intros H. inversion H as [| ? ? ? ? ? ? ? _ _ _ _ _ Hd | ? ? ? ? _ _ _ Hd]; subst;
    [eauto | inversion Hd; eauto | inversion Hd; eauto].
Qed.

Lemma AttachRun_returns f evs res : AttachRun f evs res -> exists e, res = Ret e.
Proof. intros H. inversion H; eauto. Qed.

Section PanicProperties.

Variable json_Marshal : deployReport -> string.
Variable filepath_Join : list string -> string.
Variable filepath_Dir : string -> string.
Variable RecommendedHomeFile : string.

Lemma deployService_panic f :
  runs (deployService filepath_Join filepath_Dir f)
       (fun evs res => forall msg, res = Panic msg -> markedDirectory evs).
Proof.
  unfold deployService.
  eapply runs_bind; [apply getProjectName_name | | ].
  2:{ intros evs1 msg (r & _ & H). destruct (r_err r); [discriminate H|].
      destruct H as [[=] _]. }
  intros evs1 pn (r & -> & H). cbn beta.
  destruct (r_err r) as [e|]; [injection H as ->; cbn [snd]; run_steps; intros ? [=]|].
  destruct H as [[= ->] _]. cbn [fst snd].
  eapply runs_bind; [apply generateImageRef_shape | | ].
  2:{ intros evs2 msg [(ir & err & [=] & _) _]. }
  intros evs2 ir [(ir' & err & [= ->] & Hir) _]. cbn beta. cbn [fst snd].
  destruct err as [e|]; [run_steps; intros ? [=]|].
  unfold Printf at 1. run_steps.
  eapply runs_bind; [apply buildApplication_runs | | ].
  2:{ intros evs3 msg [Hb _]. apply BuildRun_returns in Hb as [e [=]]. }
  intros evs3 b _. cbn beta.
  destruct b; [run_steps; intros ? [=]|].
  unfold Printf at 1. run_steps.
  eapply runs_bind; [apply dockerPushWithECRLogin_panic | | ].
  2:{ intros evs4 msg Hp. destruct (Hp msg eq_refl) as [Hm Hs].
      intros msg' _. exists r. split; [reflexivity|].
      destruct Hir as [-> | (account & region & _ & _ & ->)]; [exact Hm|].
      rewrite registryRef_has_slash in Hs. discriminate Hs. }
  intros evs4 p _. cbn beta.
  destruct p; [run_steps; intros ? [=]|].
  unfold Printf at 1. run_steps.
  eapply runs_bind; [apply knServiceApply_runs | | intros ? ? (? & ? & _ & _ & _ & [=])].
  intros evs5 d _. cbn beta.
  destruct d; [run_steps; intros ? [=]|].
  unfold Printf. run_steps; intros ? [=].
Qed.

Lemma deployRun_panic f :
  runs (deployRun json_Marshal filepath_Join filepath_Dir RecommendedHomeFile f)
       (fun evs res => forall msg, res = Panic msg -> markedDirectory evs).
Proof.
  unfold deployRun.
  eapply runs_bind; [apply deployService_panic | |
                     intros evs1 m H1 m' _; exact (H1 m eq_refl)].
  intros evs1 [e | [[projectName imageRef] ns]] _; cbn beta iota.
  - run_steps. intros ? [=].
  - eapply runs_weaken; [apply attachAndReport_runs|].
    intros evs res H msg ->. apply AttachRun_returns in H as [e [=]].
Qed.

(** X7. The [deploy] command panics only in this case: the name of the
    working directory, with [:latest] appended, holds the registry marker
    [.dkr.ecr.] (so that the push stage takes the local image name for a
    registry reference without repository).  In every other run, whatever
    the tools answer, the command returns: with an error or with success. *)
Theorem deploy_panics_only_in_marked_directory
    (f : DeployFlags) (w : World) (msg : string) :
  fst (run (deployRun json_Marshal filepath_Join filepath_Dir
                      RecommendedHomeFile f) w) = Panic msg ->
  exists r,
    head (snd (run (deployRun json_Marshal filepath_Join filepath_Dir
                              RecommendedHomeFile f) w)) = Some (Getwd, r) /\
    Contains (projectNameOf (r_out r) ++ ":latest") ".dkr.ecr." = true.
Proof.
  intros H. exact (runs_run _ _ w (deployRun_panic f) msg H).
Qed.

End PanicProperties.

Lemma deploy_panics_only_in_marked_directory_witness :
  exists r,
    head (snd (Demo.deploy Demo.flags Flaky.world)) = Some (Getwd, r) /\
    Contains (projectNameOf (r_out r) ++ ":latest") ".dkr.ecr." = true.
Proof.
  unfold Demo.deploy.
  refine (deploy_panics_only_in_marked_directory Demo.marshal Demo.joinPath
            Demo.dirOf Demo.home Demo.flags Flaky.world
            "runtime error: index out of range [1] with length 1" _).
  vm_compute. reflexivity.
Defined.

(** ** The tracking server *)

Module ApiServerProperties.
Import ApiServer.

Lemma postDeployment_keyed body fresh store :
  keyed store -> keyed (snd (postDeployment body fresh store)).
Proof.
  intros H. destruct body as [err | d]; [exact H|].
  cbn [postDeployment snd]. intros id d' Hl.
  apply lookup_insert_Some in Hl as [[<- <-] | [_ Hl]]; [reflexivity | exact (H _ _ Hl)].
Qed.

Lemma serve_snoc requests rq :
  serve (requests ++ [rq]) = snd (postDeployment (fst rq) (snd rq) (serve requests)).
Proof. unfold serve. rewrite foldl_app. reflexivity. Qed.

Lemma serve_keyed requests : keyed (serve requests).
Proof.
  induction requests as [|rq requests IH] using rev_ind.
  - intros id d Hl. unfold serve in Hl. cbn in Hl. rewrite lookup_empty in Hl.
    discriminate.
  - rewrite serve_snoc. apply postDeployment_keyed, IH.
Qed.

Lemma serve_size requests : size (serve requests) <= length requests.
Proof.
  induction requests as [|rq requests IH] using rev_ind; [reflexivity|].
  rewrite serve_snoc, length_app. cbn [length].
  destruct rq as [[err | d] fresh]; cbn [postDeployment fst snd]; [lia|].
  rewrite map_size_insert. destruct (_ !! _); unfold id; lia.
Qed.

(** X8. [POST /deployments], one request after another from the empty
    store.  A body that does not decode is answered 400 and leaves the store
    as it was.  A decoded deployment is answered back and stored under its
    id (the fresh identifier when it came without one), replacing what was
    stored under that id and nothing else; so the store holds one record per
    id, each under its own id, the last one posted, and never more records
    than requests were made. *)
Theorem postDeployment_stores_under_id
    (requests : list ((string + Deployment) * string))
    (d : Deployment) (err fresh : string) :
  let store := serve requests in
  postDeployment (inl err) fresh store = (BadRequest err, store) /\
  (let d' := if isEmpty (ID d) then withID d fresh else d in
   let store' := snd (postDeployment (inr d) fresh store) in
   fst (postDeployment (inr d) fresh store) = OK d' /\
   store' !! ID d' = Some d' /\
   (forall id, id <> ID d' -> store' !! id = store !! id) /\
   (ID d <> "" -> serve (requests ++ [(inr d, fresh)]) !! ID d = Some d)) /\
  keyed store /\
  size store <= length requests.
Proof.
  cbv zeta. split; [reflexivity|]. split; [|split; [apply serve_keyed | apply serve_size]].
  cbn [postDeployment fst snd].
  split; [reflexivity|]. split; [apply lookup_insert_eq|].
  split; [intros id Hid; apply lookup_insert_ne; congruence|].
  intros Hne. rewrite serve_snoc. cbn [postDeployment fst snd].
  destruct (ID d) eqn:E; [congruence|]. cbn [isEmpty]. rewrite E.
  apply lookup_insert_eq.
Qed.

(** X9. [GET /deployments] answers the stored records, in whatever order
    the runtime ranges over the map: a record is listed exactly when it is
    stored under some id, the listing is as long as the store is large, and,
    every record being stored under its own id, no two listed records have
    the same id. *)
Theorem listDeployments_lists_the_store
    (requests : list ((string + Deployment) * string))
    (order : list (string * Deployment)) :
  order ≡ₚ map_to_list (serve requests) ->
  (forall d, In d (listDeployments order) <->
             exists id, serve requests !! id = Some d) /\
  length (listDeployments order) = size (serve requests) /\
  NoDup (map ID (listDeployments order)).
Proof.
  intros Hp. unfold listDeployments. split; [|split].
  - intros d. rewrite <- list_elem_of_In, list_elem_of_fmap. split.
    + intros ([id d'] & -> & Hin). rewrite Hp in Hin.
      apply elem_of_map_to_list in Hin. eauto.
    + intros (id & Hl). exists (id, d). split; [reflexivity|].
      rewrite Hp. apply elem_of_map_to_list, Hl.
  - rewrite length_map, Hp. apply length_map_to_list.
  - assert (Hids : map ID (map snd order) = map fst order).
    { rewrite map_map. apply map_ext_in. intros [id d] Hin. cbn.
      apply list_elem_of_In in Hin. rewrite Hp in Hin.
      apply elem_of_map_to_list in Hin. exact (serve_keyed requests _ _ Hin). }
    rewrite Hids. 
    assert (Hnd : NoDup (map_to_list (serve requests)).*1)
      by apply NoDup_fst_map_to_list.
    rewrite <- Hp in Hnd. exact Hnd.
Qed.

Lemma listDeployments_lists_the_store_witness :
  length (listDeployments
            (map_to_list (serve [(inr Posts.report1, "u-1"); (inl "EOF", "u-2");
                                 (inr Posts.report2, "u-3"); (inr Posts.report1, "u-4")])))
  = size (serve [(inr Posts.report1, "u-1"); (inl "EOF", "u-2");
                 (inr Posts.report2, "u-3"); (inr Posts.report1, "u-4")]).
Proof.
  refine (proj1 (proj2 (listDeployments_lists_the_store
            [(inr Posts.report1, "u-1"); (inl "EOF", "u-2");
             (inr Posts.report2, "u-3"); (inr Posts.report1, "u-4")] _ _))).
  reflexivity.
Defined.

Lemma postDeployment_stores_under_id_witness :
  serve ([(inr Posts.report1, "u-1"); (inr Posts.report2, "u-3")]
         ++ [(inr (withID Posts.report1 "shop:1700000000000000000"), "u-4")])
    !! "shop:1700000000000000000"
  = Some (withID Posts.report1 "shop:1700000000000000000").
Proof.
  refine (proj2 (proj2 (proj2 (proj1 (proj2
    (postDeployment_stores_under_id
       [(inr Posts.report1, "u-1"); (inr Posts.report2, "u-3")]
       (withID Posts.report1 "shop:1700000000000000000") "EOF" "u-4"))))) _).
  discriminate.
Defined.

End ApiServerProperties.

(** ** What the push stage addresses *)




Ltac addressed_events :=
  repeat first
    [ exact (List.Forall_nil _)
    | apply List.Forall_cons; [first [exact I | exact eq_refl] | ] ].







Lemma pushed_after pre evs target : pushed target evs -> pushed target (pre ++ evs)%list.
Proof.
  intros (r & Hlast & Hr). exists r. split; [|exact Hr].
  induction pre as [|ev pre IH]; [exact Hlast|].
  change ((ev :: pre) ++ evs)%list with (ev :: (pre ++ evs))%list.
  rewrite last_cons, IH. reflexivity.
Qed.





(** ** Pushing a local image name *)


Lemma pushAuthenticated_pushes imageRef0 imageRef region reg repoName :
  runs (pushAuthenticated imageRef region reg repoName)
       (fun evs res => Forall (taggedAs imageRef0 imageRef) evs /\
                       (res = Ret None -> pushed imageRef evs)).
Proof.
  unfold pushAuthenticated, Printf, Output, Run.
  run_steps; (split; [addressed_events|]);
    intros Hres; try discriminate Hres;
    eexists; split; reflexivity.
Qed.

Lemma pushResolved_pushes imageRef0 imageRef region :
  runs (pushResolved imageRef region)
       (fun evs res => Forall (taggedAs imageRef0 imageRef) evs /\
                       (res = Ret None -> pushed imageRef evs)).
Proof.
  unfold pushResolved.
  destruct (Split_head imageRef "/") as (reg & ps & E). rewrite E.
  change (length (reg :: ps) <? 1)%nat with false. cbn iota.
  rewrite index_head. run_step.
  destruct ps as [|r ps]; unfold index at 1; cbn [lookup list_lookup].
  - run_step. split; [apply List.Forall_nil | discriminate].
  - run_step. destruct (Split_head r ":") as (repoName & qs & E'). rewrite E'.
    rewrite index_head. run_step. apply pushAuthenticated_pushes.
Qed.








(** ** The stages of a deployment gate one another *)

Lemma runs_conj {A} (m : Go A) (Q1 Q2 : Trace -> Result A -> Prop) :
  runs m Q1 -> runs m Q2 -> runs m (fun evs res => Q1 evs res /\ Q2 evs res).
Proof.
  intros H1 H2 w tr. destruct (H1 w tr) as (evs & res & E & HQ1).
  destruct (H2 w tr) as (evs' & res' & E' & HQ2).
  rewrite E in E'. injection E' as <- Hevs. apply app_inv_head in Hevs as <-.
  eauto.
Qed.

Lemma always_ret {A} P (a : A) : always P (ret a).
Proof. apply runs_ret. constructor. Qed.

Lemma always_panic {A} P msg : always P (@panic A msg).
Proof. apply runs_panic. constructor. Qed.

Lemma always_perform (P : Event -> Prop) o :
  (forall r, P (o, r)) -> always P (perform o).
Proof. intros H. apply runs_perform. intros r. repeat constructor. apply H. Qed.

Lemma always_bind {A B} P (m : Go A) (k : A -> Go B) :
  always P m -> (forall a, always P (k a)) -> always P (bind m k).
Proof.
  intros Hm Hk. eapply runs_bind; [exact Hm | | auto].
  intros evs1 a H1. eapply runs_weaken; [apply Hk|].
  intros evs2 res H2. apply Forall_app; auto.
Qed.

Lemma always_rangeMap P m : always P (rangeMap m).
Proof. intros w tr. exists [], (Ret (range_order w m)). rewrite app_nil_r. split; [reflexivity | constructor]. Qed.

(** Structural proof that every event of a computation satisfies a
    property that holds of each operation performed, by computation. *)
Ltac always_tac :=
  repeat first
    [ apply always_ret
    | apply always_panic
    | apply always_rangeMap
    | apply always_perform; intros ?; repeat split; reflexivity
    | apply always_bind; [|intros]
    | match goal with
      | |- always _ (match ?x with _ => _ end) => destruct x
      | |- always _ (let _ := _ in _) => cbv zeta
      end ].

Lemma gated_app st l1 l2 :
  gated st (l1 ++ l2)%list = gated st l1 && gated (progress st l1) l2.
Proof.
  revert st. induction l1 as [|ev l1 IH]; intros st; [reflexivity|].
  cbn [app gated progress foldl]. rewrite IH, andb_assoc. reflexivity.
Qed.

Lemma progress_app st l1 l2 :
  progress st (l1 ++ l2)%list = progress (progress st l1) l2.
Proof. unfold progress. apply foldl_app. Qed.

Lemma gated_done l : gated (true, true) l = true.
Proof.
  induction l as [|ev l IH]; [reflexivity|]. cbn [gated].
  unfold allowed, advance. cbn [fst snd orb]. rewrite IH.
  destruct (isPushAttempt ev), (isApplyAttempt ev); reflexivity.
Qed.

Lemma progress_done l : progress (true, true) l = (true, true).
Proof. induction l as [|ev l IH]; [reflexivity|]. exact IH. Qed.

Lemma progress_built p l : fst (progress (true, p) l) = true.
Proof.
  revert p. induction l as [|ev l IH]; intros p; [reflexivity|]. apply IH.
Qed.

Lemma gated_mono b p b' p' l :
  implb b b' = true -> implb p p' = true ->
  gated (b, p) l = true -> gated (b', p') l = true.
Proof.
  revert b p b' p'. induction l as [|ev l IH]; intros b p b' p' Hb Hp H; [reflexivity|].
  cbn [gated] in *. apply andb_true_iff in H as [Ha Hg]. apply andb_true_iff. split.
  - unfold allowed in *. cbn [fst snd] in *.
    destruct (isPushAttempt ev), (isApplyAttempt ev), b, p, b', p';
      try discriminate; reflexivity.
  - unfold advance in *. cbn [fst snd] in *. eapply IH; [| |exact Hg];
      destruct b, p, b', p', (isBuilt ev), (isPushed ev); try discriminate; reflexivity.
Qed.

Lemma progress_mono b p b' p' l :
  implb b b' = true -> implb p p' = true ->
  progress (b, p) l = (true, true) -> progress (b', p') l = (true, true).
Proof.
  revert b p b' p'. induction l as [|ev l IH]; intros b p b' p' Hb Hp H.
  - cbn in *. injection H as -> ->. destruct b', p'; try discriminate; reflexivity.
  - cbn [progress foldl] in *. unfold advance at 2. unfold advance at 2 in H.
    cbn [fst snd] in *. eapply IH; [| |exact H];
      destruct b, p, b', p', (isBuilt ev), (isPushed ev); try discriminate; reflexivity.
Qed.

Lemma gated_idle st l : Forall idle l -> gated st l = true.
Proof.
  intros H. revert st. induction H as [|ev l [H1 H2] _ IH]; intros st; [reflexivity|].
  cbn [gated]. unfold allowed. rewrite H1, H2, IH. reflexivity.
Qed.

Lemma gated_built p l : Forall notApply l -> gated (true, p) l = true.
Proof.
  intros H. revert p. induction H as [|ev l H1 _ IH]; intros p; [reflexivity|].
  cbn [gated]. unfold allowed, advance. cbn [fst snd orb]. rewrite H1, IH.
  destruct (isPushAttempt ev); reflexivity.
Qed.

Lemma progress_isBuilt b p l :
  existsb isBuilt l = true -> fst (progress (b, p) l) = true.
Proof.
  revert b p. induction l as [|ev l IH]; intros b p H; [discriminate|].
  cbn [existsb] in H. cbn [progress foldl]. unfold advance at 2. cbn [fst snd].
  destruct (isBuilt ev).
  - rewrite orb_true_r. apply progress_built.
  - apply IH, H.
Qed.

Lemma progress_isPushed p l :
  existsb isPushed l = true -> progress (true, p) l = (true, true).
Proof.
  revert p. induction l as [|ev l IH]; intros p H; [discriminate|].
  cbn [existsb] in H. cbn [progress foldl]. unfold advance at 2. cbn [fst snd orb andb].
  destruct (isPushed ev).
  - rewrite orb_true_r. apply progress_done.
  - rewrite orb_false_r. apply IH, H.
Qed.

(** Events that neither push nor apply leave the gates as they are. *)
Lemma staged_after_idle pre b p evs through :
  Forall idle pre -> stagedFrom (b, p) evs through ->
  stagedFrom (b, p) (pre ++ evs)%list through.
Proof.
  intros Hpre [Hg Hp]. unfold stagedFrom. rewrite gated_app, progress_app.
  assert (Hmono : implb b (fst (progress (b, p) pre)) = true /\
                  implb p (snd (progress (b, p) pre)) = true).
  { clear. revert b p. induction pre as [|ev pre IH]; intros b p.
    - destruct b, p; split; reflexivity.
    - cbn [progress foldl]. unfold advance at 2 4. cbn [fst snd].
      destruct (IH (b || isBuilt ev) (p || (b && isPushed ev))) as [H1 H2].
      fold (progress (b || isBuilt ev, p || b && isPushed ev) pre).
      destruct b, p, (isBuilt ev), (isPushed ev); cbn in *; split;
        first [exact H1 | exact H2 | reflexivity]. }
  destruct Hmono as [Hb Hq].
  destruct (progress (b, p) pre) as [b' p'] eqn:E. cbn [fst snd] in *.
  split.
  - rewrite (gated_idle _ _ Hpre). apply (gated_mono b p); assumption.
  - intros Ht. apply (progress_mono b p); auto.
Qed.

(** After a successful build, the push stage may run. *)
Lemma staged_after_build pre b p evs through :
  Forall idle pre -> existsb isBuilt pre = true ->
  stagedFrom (true, false) evs through ->
  stagedFrom (b, p) (pre ++ evs)%list through.
Proof.
  intros Hpre Hbuilt [Hg Hp]. unfold stagedFrom. rewrite gated_app, progress_app.
  pose proof (progress_isBuilt b p pre Hbuilt) as Hb.
  destruct (progress (b, p) pre) as [b' p'] eqn:E. cbn [fst] in Hb. subst b'.
  split.
  - rewrite (gated_idle _ _ Hpre). apply (gated_mono true false); auto.
  - intros Ht. apply (progress_mono true false); auto.
Qed.

(** After a successful push of what was built, anything may run. *)
Lemma staged_after_push pre p evs through :
  Forall notApply pre -> existsb isPushed pre = true ->
  stagedFrom (true, p) (pre ++ evs)%list through.
Proof.
  intros Hpre Hpushed. unfold stagedFrom. rewrite gated_app, progress_app.
  rewrite (progress_isPushed _ _ Hpushed), (gated_built _ _ Hpre).
  split; [apply gated_done | intros _; apply progress_done].
Qed.

Lemma getProjectName_idle : always idle getProjectName.
Proof. unfold getProjectName, index. always_tac. Qed.

Lemma generateImageRef_idle projectName : always idle (generateImageRef projectName).
Proof.
  unfold generateImageRef, awsRegion, index, Output, os_Getenv, Printf.
  always_tac.
Qed.

Lemma dockerPushWithECRLogin_notApply imageRef :
  always notApply (dockerPushWithECRLogin imageRef).
Proof.
  unfold dockerPushWithECRLogin, pushResolved, pushAuthenticated, awsRegion,
    index, Output, Run, os_Getenv, Printf.
  always_tac.
Qed.

Lemma packArgs_not_apply appPath imageRef envs :
  ~ ["apply"; "-f"; "-"] `suffix_of` packArgs appPath imageRef envs.
Proof.
  intros [k Hk]. unfold packArgs in Hk. apply (f_equal (@rev string)) in Hk.
  rewrite !rev_app_distr in Hk.
  destruct envs as [|e envs] using rev_ind.
  - cbn in Hk. discriminate Hk.
  - rewrite flat_map_app, rev_app_distr in Hk. cbn in Hk. discriminate Hk.
Qed.

Lemma packBuild_idle packPath appPath imageRef envs r :
  idle (Exec (packBuild packPath appPath imageRef envs), r).
Proof.
  split.
  - unfold isPushAttempt, stepOfEvent, stepOf, packBuild, packArgs.
    cbn [fst prog args app].
    destruct (packPath =? "aws"); [reflexivity|].
    destruct (packPath =? "docker"); reflexivity.
  - unfold isApplyAttempt, packBuild. cbn [fst prog args].
    rewrite (bool_decide_eq_false_2 _ (packArgs_not_apply appPath imageRef envs)).
    apply andb_false_r.
Qed.

Lemma execs_none_idle evs : execs evs = [] -> Forall idle evs.
Proof.
  unfold execs. induction evs as [|[o r] evs IH]; intros H; [constructor|].
  cbn [omap list_omap fst] in H. destruct o; try discriminate H;
    (apply List.Forall_cons; [split; reflexivity | apply IH, H]).
Qed.

Lemma notices_idle evs : notices evs -> Forall idle evs.
Proof.
  intros H. eapply Forall_impl; [exact H|]. intros [o r] [text Ht].
  cbn [fst] in Ht. subst o. split; reflexivity.
Qed.

Section StageProperties.

Variable json_Marshal : deployReport -> string.
Variable filepath_Join : list string -> string.
Variable filepath_Dir : string -> string.
Variable RecommendedHomeFile : string.

Lemma Selected_idle appPath probes d :
  Selected filepath_Join appPath probes d -> Forall idle probes.
Proof. intros H. inversion H; repeat constructor. Qed.

Lemma DockerRun_built appPath imageRef evs res :
  DockerRun filepath_Join appPath imageRef evs res ->
  Forall idle evs /\ (res = Ret None -> existsb isBuilt evs = true).
Proof.
  intros H. inversion H as [probes d r Hsel]; subst. split.
  - apply Forall_app. split; [eapply Selected_idle, Hsel|].
    repeat constructor.
  - intros [= Hr]. rewrite existsb_app. apply orb_true_iff. right.
    cbn [existsb]. unfold isBuilt, succeeded. cbn [fst snd]. rewrite Hr. reflexivity.
Qed.

Lemma BuildRun_built appPath imageRef envs evs res :
  BuildRun filepath_Join appPath imageRef envs evs res ->
  Forall idle evs /\ (res = Ret None -> existsb isBuilt evs = true).
Proof.
  intros H. inversion H as
      [search note packPath r Hx Hp Hn Hr
      |search note packPath r note' fallback res' Hx Hp Hn Hr Hn' Hd
      |search note fallback res' Hx Hno Hn Hd]; subst.
  - split.
    + repeat (apply Forall_app; split);
        [apply execs_none_idle, Hx | apply notices_idle, Hn|].
      repeat constructor; apply packBuild_idle.
    + intros _. rewrite !existsb_app. apply orb_true_iff. right.
      apply orb_true_iff. right. cbn [existsb]. unfold isBuilt, succeeded.
      cbn [fst snd]. unfold present in Hr. rewrite Hr. reflexivity.
  - destruct (DockerRun_built _ _ _ _ Hd) as [Hi Hb]. split.
    + repeat (apply Forall_app; split);
        [apply execs_none_idle, Hx | apply notices_idle, Hn | | apply notices_idle, Hn'
        | exact Hi].
      repeat constructor; apply packBuild_idle.
    + intros Hres. rewrite !existsb_app. rewrite (Hb Hres), !orb_true_r. reflexivity.
  - destruct (DockerRun_built _ _ _ _ Hd) as [Hi Hb]. split.
    + repeat (apply Forall_app; split);
        [apply execs_none_idle, Hx | apply notices_idle, Hn | exact Hi].
    + intros Hres. rewrite !existsb_app. rewrite (Hb Hres), !orb_true_r. reflexivity.
Qed.

Lemma PushRun_pushed evs res :
  PushRun (steps evs) res -> res = Ret None -> existsb isPushed evs = true.
Proof.
  intros H Hres.
  destruct (PushRun_discipline _ _ H) as (_ & _ & _ & _ & _ & _ & Hlast).
  specialize (Hlast Hres). apply last_Some_elem_of in Hlast.
  unfold steps in Hlast. apply list_elem_of_omap in Hlast as (ev & Hin & Hev).
  apply existsb_exists. exists ev. split; [apply list_elem_of_In, Hin|].
  unfold isPushed. rewrite Hev. reflexivity.
Qed.

End StageProperties.

Section GateProperties.

Variable json_Marshal : deployReport -> string.
Variable filepath_Join : list string -> string.
Variable filepath_Dir : string -> string.
Variable RecommendedHomeFile : string.

Lemma buildApplication_built appPath imageRef envs :
  runs (buildApplication filepath_Join filepath_Dir appPath imageRef envs)
       (fun evs res => Forall idle evs /\
                       (res = Ret None -> existsb isBuilt evs = true)).
Proof.
  eapply runs_weaken; [apply buildApplication_runs|].
  intros evs res [H _]. exact (BuildRun_built _ _ _ _ _ _ H).
Qed.

Lemma dockerPushWithECRLogin_pushed imageRef :
  runs (dockerPushWithECRLogin imageRef)
       (fun evs res => Forall notApply evs /\
                       (res = Ret None -> existsb isPushed evs = true)).
Proof.
  eapply runs_weaken;
    [apply runs_conj;
       [apply dockerPushWithECRLogin_runs | apply dockerPushWithECRLogin_notApply]|].
  intros evs res [[H _] Hn]. split; [exact Hn | exact (PushRun_pushed _ _ H)].
Qed.

Ltac after_idle H :=
  eapply runs_weaken; cycle 1;
  [ let evs := fresh "evs" in let res := fresh "res" in let HQ := fresh "HQ" in
    intros evs res HQ; apply staged_after_idle; [exact H | exact HQ]
  | cbn beta ].

Ltac after_notice :=
  eapply runs_weaken; cycle 1;
  [ let evs := fresh "evs" in let res := fresh "res" in let HQ := fresh "HQ" in
    intros evs res HQ; apply (staged_after_idle [_]);
    [repeat constructor | exact HQ]
  | cbn beta ].

Ltac stopped :=
  run_steps; split; [reflexivity | intros (? & [=])].

Lemma deployService_staged f :
  runs (deployService filepath_Join filepath_Dir f)
       (fun evs res => stagedFrom (false, false) evs (exists x, res = Ret (inr x))).
Proof.
  unfold deployService.
  eapply runs_bind; [apply getProjectName_idle | |
    intros ? ? H; split; [apply gated_idle, H | intros (? & [=])]].
  intros evs1 pn H1. cbn beta. after_idle H1.
  destruct (snd pn); [stopped|].
  eapply runs_bind; [apply generateImageRef_idle | |
    intros ? ? H; split; [apply gated_idle, H | intros (? & [=])]].
  intros evs2 ir H2. cbn beta. after_idle H2.
  destruct (snd ir); [stopped|].
  unfold Printf at 1. run_steps. after_notice.
  eapply runs_bind; [apply buildApplication_built | |
    intros ? ? [H _]; split; [apply gated_idle, H | intros (? & [=])]].
  intros evs3 b [H3 Hb]. cbn beta.
  destruct b; [after_idle H3; stopped|].
  eapply runs_weaken; cycle 1.
  { intros evs res HQ. apply staged_after_build; [exact H3 | exact (Hb eq_refl) | exact HQ]. }
  cbn beta.
  unfold Printf at 1. run_steps. after_notice.
  eapply runs_bind; [apply dockerPushWithECRLogin_pushed | |
    intros ? ? [H _]; split; [apply gated_built, H | intros (? & [=])]].
  intros evs4 p [H4 Hp]. cbn beta.
  destruct p.
  { run_steps. rewrite app_nil_r. split; [apply gated_built, H4 | intros (? & [=])]. }
  eapply runs_weaken with (Q := fun evs _ => Forall (fun _ => True) evs).
  2:{ intros evs res _. apply staged_after_push; [exact H4 | exact (Hp eq_refl)]. }
  unfold knServiceApply, Run, Printf. always_tac.
Qed.

(** X12. The stages of [deploy] gate one another: in every run, whatever
    the environment answers, no [docker push] is attempted before a build
    command has succeeded, and no [kubectl apply] is attempted before the
    push of the image built has succeeded; a run that returns no error has
    built, then pushed, and has applied the service. *)
Theorem deploy_stages_gate_one_another (f : DeployFlags) :
  runs (deployRun json_Marshal filepath_Join filepath_Dir RecommendedHomeFile f)
       (fun evs res =>
          gated (false, false) evs = true /\
          (res = Ret None ->
           progress (false, false) evs = (true, true) /\ applied evs)).
Proof.
  eapply runs_weaken with
    (Q := fun evs res =>
            stagedFrom (false, false) evs (res = Ret None) /\ DeployRun f evs res).
  2:{ intros evs res [[Hg Hp] HD]. split; [exact Hg|].
      intros Hres. split; [exact (Hp Hres)|]. subst res.
      inversion HD as [? ? _ Hne | pre tail ? _ Ha _]; subst; [congruence|].
      apply Exists_app. left. exact Ha. }
  apply runs_conj; [|apply deployRun_runs].
  unfold deployRun.
  eapply runs_bind; [apply deployService_staged | |
    intros ? ? [Hg _]; split; [exact Hg | discriminate]].
  intros pre s [Hg Hp]. cbn beta.
  destruct s as [e | [[projectName imageRef] ns]]; cbn beta iota.
  - run_steps. rewrite app_nil_r. split; [exact Hg | discriminate].
  - eapply runs_weaken; [apply attachAndReport_runs|].
    intros evs res _. unfold stagedFrom.
    rewrite gated_app, progress_app, (Hp (ex_intro _ _ eq_refl)), Hg.
    split; [apply gated_done | intros _; apply progress_done].
Qed.

End GateProperties.

(** ** The environment in the service descriptor *)

Lemma HasPrefix_refl s : HasPrefix s s = true.
Proof. induction s as [|a s IH]; [reflexivity|]. cbn. rewrite Ascii.eqb_refl. exact IH. Qed.

Lemma Contains_refl s : Contains s s = true.
Proof. apply Contains_prefix, HasPrefix_refl. Qed.

Lemma Contains_Join x l sep : In x l -> Contains (Join l sep) x = true.
Proof.
  induction l as [|e l IH]; intros H; [destruct H|].
  destruct l as [|e' l].
  - destruct H as [-> | []]. apply Contains_refl.
  - change (Join (e :: e' :: l) sep) with (e ++ sep ++ Join (e' :: l) sep).
    destruct H as [-> | H].
    + apply Contains_app_l, Contains_refl.
    + do 2 apply Contains_app_r. apply IH, H.
Qed.

(** X13. The service descriptor and the environment: every variable of the
    environment map is rendered, name and quoted value, in the descriptor,
    in whatever order the runtime ranges over the map; an empty map gives a
    descriptor without an [env:] section; and the descriptor is the same
    whatever [cpu] and [mem] are: the resource flags do not reach it. *)
Theorem descriptor_carries_environment
    (name image ns cpu mem : string) (port : Z)
    (env : gmap string string) (order : list (string * string)) :
  order ≡ₚ map_to_list env ->
  let y := newKnServiceYAML name image ns cpu mem order port in
  (forall k v, env !! k = Some v ->
     Contains y ("          - name: " ++ k ++ nl ++
                 "            value: " ++ quoted v) = true) /\
  (env = ∅ -> y = newKnServiceYAML name image ns cpu mem [] port) /\
  (forall cpu' mem', newKnServiceYAML name image ns cpu' mem' order port = y).
Proof.
  intros Hp. cbv zeta. split; [|split].
  - intros k v Hl.
    assert (Hin : In (k, v) order).
    { apply list_elem_of_In. rewrite Hp. apply elem_of_map_to_list, Hl. }
    unfold newKnServiceYAML. do 37 apply Contains_app_r. apply Contains_app_l.
    rewrite length_map. destruct order as [|kv order]; [destruct Hin|].
    cbn [length Nat.ltb Nat.leb]. do 2 apply Contains_app_r.
    apply Contains_Join.
    apply (in_map (fun kv => "          - name: " ++ fst kv ++ nl ++
                             "            value: " ++ quoted (snd kv)) _ _ Hin).
  - intros ->. rewrite map_to_list_empty in Hp. apply Permutation_nil_r in Hp.
    rewrite Hp. reflexivity.
  - reflexivity.
Qed.

Lemma descriptor_carries_environment_witness :
  Contains (newKnServiceYAML "shop" "shop:latest" "default" "250m" "256Mi"
              (map_to_list (toEnvMap ["MODE=prod"; "MODE=dev"; "PORT=8080"])) 8080)
           ("          - name: MODE" ++ nl ++ "            value: " ++ quoted "dev")
  = true.
Proof.
  refine (proj1 (descriptor_carries_environment "shop" "shop:latest" "default"
                   "250m" "256Mi" 8080
                   (toEnvMap ["MODE=prod"; "MODE=dev"; "PORT=8080"]) _ _)
                "MODE" "dev" _).
  - reflexivity.
  - vm_compute. reflexivity.
Defined.

Lemma deploy_stages_gate_one_another_witness :
  progress (false, false) (snd (Demo.deploy Demo.flags (Demo.dev true true)))
  = (true, true).
Proof.
  refine (proj1 (proj2 (runs_run _ _ (Demo.dev true true)
            (deploy_stages_gate_one_another Demo.marshal Demo.joinPath Demo.dirOf
               Demo.home Demo.flags)) _)).
  vm_compute. reflexivity.
Defined.

(** ** What is applied is what was built and pushed *)

Lemma pushed_names target evs :
  pushed target evs ->
  Exists (fun ev => isPushed ev = true /\ names target ev) evs.
Proof.
  intros (r & Hlast & Hr). apply last_In in Hlast. apply List.Exists_exists.
  eexists. split; [exact Hlast|]. split.
  - unfold isPushed, stepOfEvent, succeeded. cbn. rewrite Hr. reflexivity.
  - eexists. split; [reflexivity|]. cbn. auto.
Qed.

Lemma dockerPushWithECRLogin_target imageRef :
  runs (dockerPushWithECRLogin imageRef)
       (fun evs res =>
          res = Ret None ->
          exists target, pushed target evs /\
                         (Contains imageRef registryMarker = true -> target = imageRef)).
Proof.
  unfold dockerPushWithECRLogin.
  eapply runs_bind; [apply awsRegion_runs | | intros ? ? (_ & _ & ? & [=])].
  intros evs0 region _. cbn beta.
  eapply runs_weaken with
    (Q := fun evs res =>
            res = Ret None ->
            exists target, pushed target evs /\
                           (Contains imageRef registryMarker = true ->
                            target = imageRef)).
  2:{ intros evs res H Hres. destruct (H Hres) as (target & Hp & Ht).
      exists target. split; [apply pushed_after, Hp | exact Ht]. }
  unfold Output.
  apply runs_bind_assoc. apply runs_bind_perform. intros [[e|] out num dir];
    cbn beta iota; run_simpl; run_step; run_simpl.
  - run_step. discriminate.
  - destruct (isEmpty (TrimSpace out)); [run_step; discriminate|].
    change ".dkr.ecr." with registryMarker.
    destruct (Contains imageRef registryMarker) eqn:Hm; cbn [negb].
    + eapply runs_weaken; [apply (pushResolved_pushes imageRef)|].
      intros evs res [_ H] Hres. exists imageRef.
      split; [apply (pushed_after [_]), H, Hres | reflexivity].
    + destruct (Split_head imageRef ":") as (projectName & qs & E).
      rewrite E, index_head. run_step. unfold Printf, Run. run_steps.
      * discriminate.
      * eapply runs_weaken; [apply (pushResolved_pushes imageRef)|].
        intros evs res [_ H] Hres. eexists.
        split; [apply (pushed_after [_; _; _]), H, Hres | discriminate].
Qed.

Lemma knServiceApply_describes name image ns cpu mem env ctx port :
  runs (knServiceApply name image ns cpu mem env ctx port)
       (fun evs res =>
          exists c r, evs = [(Exec c, r)] /\ res = Ret (r_err r) /\
                      describes image (Exec c, r) /\
                      (r_err r = None -> isApply (Exec c, r) = true)).
Proof.
  intros w tr. unfold knServiceApply, rangeMap, Run, bind, perform, ret.
  eexists [_], _. split; [reflexivity|]. eexists _, _.
  split; [reflexivity|]. split; [reflexivity|]. split.
  - eexists _, _. split; [reflexivity|]. split; [reflexivity|].
    unfold newKnServiceYAML. do 27 apply Contains_app_r.
    match goal with
    | |- Contains (?p ++ ?i ++ ?n ++ ?rest) _ = true =>
        replace (p ++ i ++ n ++ rest) with ((p ++ i ++ n) ++ rest)
          by (rewrite !append_assoc_string; reflexivity)
    end.
    apply Contains_app_l, Contains_refl.
  - intros Hr. unfold isApply, succeeded. cbn [fst snd prog args]. rewrite Hr.
    cbn [String.eqb Ascii.eqb Bool.eqb andb].
    apply bool_decide_eq_true_2. unfold kubectlArgs.
    destruct ctx as [|a ctx]; cbn.
    + exists []. reflexivity.
    + exists ["--context"; String a ctx]. reflexivity.
Qed.

Section DeliveryProperties.

Variable json_Marshal : deployReport -> string.
Variable filepath_Join : list string -> string.
Variable filepath_Dir : string -> string.
Variable RecommendedHomeFile : string.

Lemma DockerRun_names appPath imageRef evs :
  DockerRun filepath_Join appPath imageRef evs (Ret None) ->
  Exists (fun ev => isBuilt ev = true /\ names imageRef ev) evs.
Proof.
  intros H. inversion H as [probes d r Hsel E Hres]; subst.
  apply Exists_app. right. apply List.Exists_cons_hd. split.
  - unfold isBuilt, succeeded. cbn [fst snd].
    replace (r_err r) with (@None string) by congruence. reflexivity.
  - eexists. split; [reflexivity|]. cbn. auto 10.
Qed.

Lemma BuildRun_names appPath imageRef envs evs :
  BuildRun filepath_Join appPath imageRef envs evs (Ret None) ->
  Exists (fun ev => isBuilt ev = true /\ names imageRef ev) evs.
Proof.
  intros H. inversion H as
      [search note packPath r Hx Hp Hn Hr
      |search note packPath r note' fallback res' Hx Hp Hn Hr Hn' Hd
      |search note fallback res' Hx Hno Hn Hd]; subst.
  - do 2 (apply Exists_app; right). apply List.Exists_cons_hd. split.
    + unfold isBuilt, succeeded. cbn [fst snd]. unfold present in Hr. rewrite Hr.
      reflexivity.
    + eexists. split; [reflexivity|]. cbn. auto.
  - do 2 (apply Exists_app; right). apply List.Exists_cons_tl.
    apply Exists_app. right. apply DockerRun_names with (appPath := appPath), Hd.
  - do 2 (apply Exists_app; right). apply DockerRun_names with (appPath := appPath), Hd.
Qed.

Lemma buildApplication_names appPath imageRef envs :
  runs (buildApplication filepath_Join filepath_Dir appPath imageRef envs)
       (fun evs res =>
          res = Ret None ->
          Exists (fun ev => isBuilt ev = true /\ names imageRef ev) evs).
Proof.
  eapply runs_weaken; [apply buildApplication_runs|].
  intros evs res [H _] ->. exact (BuildRun_names _ _ _ _ H).
Qed.

(** Finds, in a trace given by appends and explicit events, the part a
    hypothesis speaks of. *)
Ltac in_trace H :=
  repeat first
    [ exact H
    | apply Exists_app; left; exact H
    | apply List.Exists_cons_hd; exact H
    | apply Exists_app; right
    | apply List.Exists_cons_tl ].

Lemma deployService_delivers f :
  runs (deployService filepath_Join filepath_Dir f)
       (fun evs res =>
          forall projectName imageRef ns,
            res = Ret (inr (projectName, imageRef, ns)) -> delivered imageRef evs).
Proof.
  unfold deployService.
  eapply runs_bind; [apply getProjectName_quietly | | intros; discriminate].
  intros evs1 pn _. cbn beta.
  destruct (snd pn); [run_steps; intros; discriminate|].
  eapply runs_bind; [apply generateImageRef_quietly | | intros; discriminate].
  intros evs2 ir _. cbn beta.
  destruct (snd ir); [run_steps; intros; discriminate|].
  unfold Printf at 1. run_steps.
  eapply runs_bind; [apply buildApplication_names | | intros; discriminate].
  intros evs3 b Hb. cbn beta.
  destruct b; [run_steps; intros; discriminate|]. specialize (Hb eq_refl).
  unfold Printf at 1. run_steps.
  eapply runs_bind; [apply dockerPushWithECRLogin_target | | intros; discriminate].
  intros evs4 p Hp. cbn beta.
  destruct p; [run_steps; intros; discriminate|].
  destruct (Hp eq_refl) as (target & Hpushed & Htarget).
  apply pushed_names in Hpushed.
  unfold Printf at 1. run_steps.
  eapply runs_bind; [apply knServiceApply_describes | |
                     intros ? ? (? & ? & _ & [=] & _)].
  intros evs5 d (kc & kr & -> & [= ->] & Hd & Ha). cbn beta.
  destruct (r_err kr) eqn:Er; [run_steps; intros; discriminate|].
  assert (Happlied : isApply (Exec kc, kr) = true /\ describes (fst ir) (Exec kc, kr))
    by (split; [apply Ha; reflexivity | exact Hd]).
  unfold Printf. run_steps.
  all: intros projectName imageRef ns [= _ <- _]; unfold delivered; cbn [app].
  all: split; [in_trace Hb | split; [exists target; split; [in_trace Hpushed | exact Htarget]|]].
  all: in_trace Happlied.
Qed.

(** X14. What [deploy] applies is what it built and pushed: a run that
    returns no error has run a successful build command naming an image
    reference, a successful [docker push], and a successful
    [kubectl apply] of a descriptor whose container image is that same
    reference; the reference pushed is that same reference whenever it is a
    registry reference. *)
Theorem deploy_applies_what_it_built (f : DeployFlags) :
  runs (deployRun json_Marshal filepath_Join filepath_Dir RecommendedHomeFile f)
       (fun evs res => res = Ret None -> exists imageRef, delivered imageRef evs).
Proof.
  eapply runs_weaken with
    (Q := fun evs res =>
            res = Ret None -> exists imageRef pre tail,
                evs = (pre ++ tail)%list /\ delivered imageRef pre).
  2:{ intros evs res H Hres.
      destruct (H Hres) as (imageRef & pre & tail & -> & Hb & (target & Hp & Ht) & Ha).
      exists imageRef. split; [apply Exists_app; left; exact Hb|].
      split; [|apply Exists_app; left; exact Ha].
      exists target. split; [apply Exists_app; left; exact Hp | exact Ht]. }
  unfold deployRun.
  eapply runs_bind; [apply deployService_delivers | | intros; discriminate].
  intros pre s Hs. cbn beta.
  destruct s as [e | [[projectName imageRef] ns]]; cbn beta iota.
  - run_steps. discriminate.
  - eapply runs_weaken; [apply attachAndReport_runs|].
    intros evs res _ _. exists imageRef, pre, evs.
    split; [reflexivity | exact (Hs _ _ _ eq_refl)].
Qed.

End DeliveryProperties.

Lemma deploy_applies_what_it_built_witness :
  exists imageRef,
    delivered imageRef (snd (Demo.deploy Demo.flags (Demo.dev true true))).
Proof.
  refine (runs_run _ _ (Demo.dev true true)
            (deploy_applies_what_it_built Demo.marshal Demo.joinPath Demo.dirOf
               Demo.home Demo.flags) _).
  vm_compute. reflexivity.
Defined.
